(** * PixelArena: the arena character's state loop

    A shallow embedding of [ArenaCharacter.cpp]: the object's fields are a
    record, every member function is a computation in a small state-and-failure
    monad over a [World] (the object, the log of calls made to collaborators,
    the number of clock readings taken, the values assigned to
    [CharacterState]), and the collaborators themselves (Blueprint hooks, the
    engine, other actors) are a parameter [env] that may change the object in
    any way when called.  The clock is a parameter too: the sequence of the
    readings [FDateTime::Now] returns.

    Numbers: [FDateTime] and [FTimespan] wrap a signed 64-bit tick count
    (100 ns per tick); they are integers here, and no wrap-around is written
    out because every difference of two valid time stamps (and of the release
    sentinel -1) fits in 64 bits.  The milliseconds of a time span are a
    [double] and the damage of an attack is a [float], with the IEEE 754
    rounding of every operation the code performs on them (binary64 and
    binary32, round to nearest, ties to even).  Speeds and velocities, which
    the code only stores, negates and passes on, are rationals. *)

From Stdlib Require Import ZArith QArith List Bool String Lia.
From Stdlib Require Import Qpower SpecFloat.
Import ListNotations.

Local Open Scope Z_scope.

(** ** Engine types *)

(** [FDateTime]: the tick count [Ticks]. *)
Definition FDateTime : Type := Z.

(** [FTimespan]: a signed tick count. *)
Definition FTimespan : Type := Z.

(** [FDateTime()]: the default constructor sets [Ticks] to 0. *)
Definition FDateTime_default : FDateTime := 0.

(** [FDateTime::operator-]. *)
Definition FDateTime_sub (a b : FDateTime) : FTimespan := a - b.

(** [FDateTime::operator>]. *)
Definition FDateTime_gt (a b : FDateTime) : bool := b <? a.

(** [FTimespan::GetDuration]: the magnitude of the span. *)
Definition GetDuration (t : FTimespan) : FTimespan := if 0 <=? t then t else - t.

(** [ETimespan::TicksPerMillisecond]. *)
Definition TicksPerMillisecond : positive := 10000.

(** [double]: an IEEE 754 binary64 value (53 bits of precision).  A number is
    held in the canonical form the operations below return. *)
Definition double : Type := spec_float.

(** [float]: an IEEE 754 binary32 value (24 bits of precision). *)
Definition float : Type := spec_float.

(** The conversion of an integer to [double]: the nearest binary64 value. *)
Definition double_of_int64 (z : Z) : double := binary_normalize 53 1024 z 0 false.

(** The conversion of an integer to [float]: the nearest binary32 value. *)
Definition float_of_int (z : Z) : float := binary_normalize 24 128 z 0 false.

(** [operator<] on [double]: false when either side is not a number. *)
Definition double_lt (x y : double) : bool := SFltb x y.

(** [operator<=] on [double]. *)
Definition double_le (x y : double) : bool := SFleb x y.

(** A [float] that is a number: neither an infinity nor a NaN. *)
Definition float_is_finite (x : float) : bool :=
  match x with
  | S754_zero _ | S754_finite _ _ _ => true
  | S754_infinity _ | S754_nan => false
  end.

(** The number a finite [float] stands for: sign, mantissa and binary
    exponent (0 for the values that are not numbers). *)
Definition float_value (x : float) : Q :=
  match x with
  | S754_finite s m e => (inject_Z (cond_Zopp s (Zpos m)) * 2 ^ e)%Q
  | _ => 0%Q
  end.

(** [operator*] on [float]. *)
Definition float_mul (x y : float) : float := SFmul 24 128 x y.

(** [FTimespan::GetTotalMilliseconds]:
    [(double)Ticks / ETimespan::TicksPerMillisecond], a division of doubles. *)
Definition GetTotalMilliseconds (t : FTimespan) : double :=
  SFdiv 53 1024 (double_of_int64 t) (double_of_int64 (Zpos TicksPerMillisecond)).

Arguments double_of_int64 : simpl never.
Arguments float_of_int : simpl never.
Arguments double_lt : simpl never.
Arguments double_le : simpl never.
Arguments float_mul : simpl never.
Arguments GetTotalMilliseconds : simpl never.

(** [FVector(X, Y, Z)]. *)
Record FVector : Type := MkFVector { X : Q; Y : Q; Z_ : Q }.

(** Objects owned by the engine are known by their identity only. *)
Definition AArenaActor : Type := nat.
Definition UBoxComponent : Type := nat.
Definition UPaperFlipbook : Type := nat.

Inductive ECollisionEnabled : Type := NoCollision | QueryAndPhysics.

(** ** Enumerations declared in ArenaCharacter.h *)

(** Modelled from the spec: the [Direction] enum of ArenaCharacter.h, which is
    not among the sources; the spec gives its enumerators in this order, so
    [North] is the enumerator with value 0. *)
Inductive Direction : Type := North | East | South | West.

(** Modelled from the spec: the enum of the [CharacterState] field, declared in
    ArenaCharacter.h; the source names its four enumerators in [Tick]. *)
Inductive ECharacterState : Type := Idle | Walking | Attacking | Ability.

Definition Direction_eqb (a b : Direction) : bool :=
  match a, b with
  | North, North | East, East | South, South | West, West => true
  | _, _ => false
  end.

(** Position of a direction in the enumeration. *)
Definition Direction_index (d : Direction) : nat :=
  match d with North => 0 | East => 1 | South => 2 | West => 3 end%nat.

(** ** [TMap]

    A [TMap] built by [Add] alone, with no removal, iterates in insertion
    order, so it is an association list with unique keys. *)
Section TMapOps.
Context {K V : Type}.
Variable eqb : K -> K -> bool.

Definition TMap : Type := list (K * V).

(** [TMap::Find]. *)
Fixpoint TMap_Find (k : K) (m : TMap) : option V :=
  match m with
  | [] => None
  | (k', v) :: rest => if eqb k k' then Some v else TMap_Find k rest
  end.

(** [TMap::Contains]. *)
Definition TMap_Contains (k : K) (m : TMap) : bool :=
  match TMap_Find k m with Some _ => true | None => false end.

(** [TMap::Add]: replaces the value of a key that is present, in place, and
    appends a new pair otherwise. *)
Fixpoint TMap_Add (k : K) (v : V) (m : TMap) : TMap :=
  match m with
  | [] => [(k, v)]
  | (k', v') :: rest =>
      if eqb k k' then (k', v) :: rest else (k', v') :: TMap_Add k v rest
  end.

(** [Map[Key] = Value]: [operator[]] is [FindChecked], which has no result
    for a key that is absent; the value is written in place. *)
Fixpoint TMap_Assign (k : K) (v : V) (m : TMap) : option TMap :=
  match m with
  | [] => None
  | (k', v') :: rest =>
      if eqb k k' then Some ((k', v) :: rest)
      else match TMap_Assign k v rest with
           | Some rest' => Some ((k', v') :: rest')
           | None => None
           end
  end.
End TMapOps.

Arguments TMap : clear implicits.

(** ** The object *)

(** [static FDateTime InputReleaseTime = -1]. *)
Definition InputReleaseTime : FDateTime := -1.

(** The fields of [AArenaCharacter] that ArenaCharacter.cpp reads or writes.
    Their declarations are in ArenaCharacter.h; each has the type of its use
    in ArenaCharacter.cpp: [AbilityCooldown] is the [double] that the
    milliseconds of a span are compared with, [AttackDamage] the [float] that
    is multiplied by the power [Pow] returns. *)
Record ArenaCharacter : Type := MkArenaCharacter {
  MoveInputMap : TMap Direction FDateTime;
  bIsMoving : bool;
  MoveDirection : Direction;
  Facing : Direction;
  MoveSpeed : Q;
  Velocity : FVector;
  AttackBoxes : TMap Direction UBoxComponent;
  AttackDamage : float;
  attackKeyDown : bool;
  bIsAttacking : bool;
  attackDownTime : FDateTime;
  attackStarted : bool;
  abilityKeyDown : bool;
  bIsAbility : bool;
  abilityDownTime : FDateTime;
  abilityCooldownTime : FDateTime;
  AbilityCooldown : double;
  CharacterState : ECharacterState;
  IdleAnimations : TMap Direction UPaperFlipbook;
  WalkingAnimations : TMap Direction UPaperFlipbook
}.

(** Assignments to single fields. *)
Definition set_MoveInputMap (v : TMap Direction FDateTime) (o : ArenaCharacter) :=
  let '(MkArenaCharacter _ f2 f3 f4 f5 f6 f7 f8 f9 f10 f11 f12 f13 f14 f15 f16 f17 f18 f19 f20) := o in
  MkArenaCharacter v f2 f3 f4 f5 f6 f7 f8 f9 f10 f11 f12 f13 f14 f15 f16 f17 f18 f19 f20.

Definition set_bIsMoving (v : bool) (o : ArenaCharacter) :=
  let '(MkArenaCharacter f1 _ f3 f4 f5 f6 f7 f8 f9 f10 f11 f12 f13 f14 f15 f16 f17 f18 f19 f20) := o in
  MkArenaCharacter f1 v f3 f4 f5 f6 f7 f8 f9 f10 f11 f12 f13 f14 f15 f16 f17 f18 f19 f20.

Definition set_MoveDirection (v : Direction) (o : ArenaCharacter) :=
  let '(MkArenaCharacter f1 f2 _ f4 f5 f6 f7 f8 f9 f10 f11 f12 f13 f14 f15 f16 f17 f18 f19 f20) := o in
  MkArenaCharacter f1 f2 v f4 f5 f6 f7 f8 f9 f10 f11 f12 f13 f14 f15 f16 f17 f18 f19 f20.

Definition set_Facing (v : Direction) (o : ArenaCharacter) :=
  let '(MkArenaCharacter f1 f2 f3 _ f5 f6 f7 f8 f9 f10 f11 f12 f13 f14 f15 f16 f17 f18 f19 f20) := o in
  MkArenaCharacter f1 f2 f3 v f5 f6 f7 f8 f9 f10 f11 f12 f13 f14 f15 f16 f17 f18 f19 f20.

Definition set_Velocity (v : FVector) (o : ArenaCharacter) :=
  let '(MkArenaCharacter f1 f2 f3 f4 f5 _ f7 f8 f9 f10 f11 f12 f13 f14 f15 f16 f17 f18 f19 f20) := o in
  MkArenaCharacter f1 f2 f3 f4 f5 v f7 f8 f9 f10 f11 f12 f13 f14 f15 f16 f17 f18 f19 f20.

Definition set_AttackBoxes (v : TMap Direction UBoxComponent) (o : ArenaCharacter) :=
  let '(MkArenaCharacter f1 f2 f3 f4 f5 f6 _ f8 f9 f10 f11 f12 f13 f14 f15 f16 f17 f18 f19 f20) := o in
  MkArenaCharacter f1 f2 f3 f4 f5 f6 v f8 f9 f10 f11 f12 f13 f14 f15 f16 f17 f18 f19 f20.

Definition set_attackKeyDown (v : bool) (o : ArenaCharacter) :=
  let '(MkArenaCharacter f1 f2 f3 f4 f5 f6 f7 f8 _ f10 f11 f12 f13 f14 f15 f16 f17 f18 f19 f20) := o in
  MkArenaCharacter f1 f2 f3 f4 f5 f6 f7 f8 v f10 f11 f12 f13 f14 f15 f16 f17 f18 f19 f20.

Definition set_bIsAttacking (v : bool) (o : ArenaCharacter) :=
  let '(MkArenaCharacter f1 f2 f3 f4 f5 f6 f7 f8 f9 _ f11 f12 f13 f14 f15 f16 f17 f18 f19 f20) := o in
  MkArenaCharacter f1 f2 f3 f4 f5 f6 f7 f8 f9 v f11 f12 f13 f14 f15 f16 f17 f18 f19 f20.

Definition set_attackDownTime (v : FDateTime) (o : ArenaCharacter) :=
  let '(MkArenaCharacter f1 f2 f3 f4 f5 f6 f7 f8 f9 f10 _ f12 f13 f14 f15 f16 f17 f18 f19 f20) := o in
  MkArenaCharacter f1 f2 f3 f4 f5 f6 f7 f8 f9 f10 v f12 f13 f14 f15 f16 f17 f18 f19 f20.

Definition set_attackStarted (v : bool) (o : ArenaCharacter) :=
  let '(MkArenaCharacter f1 f2 f3 f4 f5 f6 f7 f8 f9 f10 f11 _ f13 f14 f15 f16 f17 f18 f19 f20) := o in
  MkArenaCharacter f1 f2 f3 f4 f5 f6 f7 f8 f9 f10 f11 v f13 f14 f15 f16 f17 f18 f19 f20.

Definition set_abilityKeyDown (v : bool) (o : ArenaCharacter) :=
  let '(MkArenaCharacter f1 f2 f3 f4 f5 f6 f7 f8 f9 f10 f11 f12 _ f14 f15 f16 f17 f18 f19 f20) := o in
  MkArenaCharacter f1 f2 f3 f4 f5 f6 f7 f8 f9 f10 f11 f12 v f14 f15 f16 f17 f18 f19 f20.

Definition set_bIsAbility (v : bool) (o : ArenaCharacter) :=
  let '(MkArenaCharacter f1 f2 f3 f4 f5 f6 f7 f8 f9 f10 f11 f12 f13 _ f15 f16 f17 f18 f19 f20) := o in
  MkArenaCharacter f1 f2 f3 f4 f5 f6 f7 f8 f9 f10 f11 f12 f13 v f15 f16 f17 f18 f19 f20.

Definition set_abilityDownTime (v : FDateTime) (o : ArenaCharacter) :=
  let '(MkArenaCharacter f1 f2 f3 f4 f5 f6 f7 f8 f9 f10 f11 f12 f13 f14 _ f16 f17 f18 f19 f20) := o in
  MkArenaCharacter f1 f2 f3 f4 f5 f6 f7 f8 f9 f10 f11 f12 f13 f14 v f16 f17 f18 f19 f20.

Definition set_abilityCooldownTime (v : FDateTime) (o : ArenaCharacter) :=
  let '(MkArenaCharacter f1 f2 f3 f4 f5 f6 f7 f8 f9 f10 f11 f12 f13 f14 f15 _ f17 f18 f19 f20) := o in
  MkArenaCharacter f1 f2 f3 f4 f5 f6 f7 f8 f9 f10 f11 f12 f13 f14 f15 v f17 f18 f19 f20.

Definition set_CharacterState (v : ECharacterState) (o : ArenaCharacter) :=
  let '(MkArenaCharacter f1 f2 f3 f4 f5 f6 f7 f8 f9 f10 f11 f12 f13 f14 f15 f16 f17 _ f19 f20) := o in
  MkArenaCharacter f1 f2 f3 f4 f5 f6 f7 f8 f9 f10 f11 f12 f13 f14 f15 f16 f17 v f19 f20.

(** ** Collaborators *)

(** The calls the object makes to code outside ArenaCharacter.cpp: the base
    class, the Blueprint hooks, the engine, and other actors.  A number
    passed is recorded as the code computes it, before any conversion to the
    type of the parameter, which ArenaCharacter.h or the actor declares. *)
Inductive Call : Type :=
| CallAddDynamicAnimationFinished
| CallSuperTick (DeltaSeconds : Q)
| CallIdleState
| CallWalkingState
| CallAttackState (ms : double) (keyDown : bool)
| CallAbilityState (ms : double) (keyDown : bool)
| CallAbilityStart
| CallAbilityEnd
| CallPlayFlipbook (flipbook : UPaperFlipbook) (looping : bool)
| CallSetCollisionEnabled (box : UBoxComponent) (mode : ECollisionEnabled)
| CallDamage (other : AArenaActor) (amount : float).

(** The object ([self], at address [this]) together with what the model
    records about a run: the calls made to collaborators, in order; how many
    times [FDateTime::Now] has been read; and every value assigned to
    [CharacterState], in order. *)
Record World : Type := MkWorld {
  this : AArenaActor;
  self : ArenaCharacter;
  calls : list Call;
  reads : nat;
  stateWrites : list ECharacterState
}.

(** ** The monad of member functions

    A member function either fails (a [check] in the engine aborts the
    program) or returns a value and the world it leaves. *)
Definition M (A : Type) : Type := World -> option (A * World).

Definition ret {A : Type} (a : A) : M A := fun w => Some (a, w).

Definition bind {A B : Type} (m : M A) (f : A -> M B) : M B :=
  fun w => match m w with
           | Some (a, w') => f a w'
           | None => None
           end.

Declare Scope arena_scope.
Delimit Scope arena_scope with arena.
Notation "x <- m ;; k" := (bind m (fun x => k))
  (at level 61, m at next level, right associativity) : arena_scope.
Notation "m ;; k" := (bind m (fun _ => k))
  (at level 61, right associativity) : arena_scope.
Local Open Scope arena_scope.

(** Reads the object. *)
Definition get : M ArenaCharacter := fun w => Some (self w, w).

(** Reads [this]. *)
Definition getThis : M AArenaActor := fun w => Some (this w, w).

(** Writes to the object. *)
Definition modify (f : ArenaCharacter -> ArenaCharacter) : M unit :=
  fun w => Some (tt, MkWorld (this w) (f (self w)) (calls w) (reads w) (stateWrites w)).

(** [Map[Key]] read: [FindChecked]. *)
Definition FindChecked {V : Type} (k : Direction) (m : TMap Direction V) : M V :=
  fun w => match TMap_Find Direction_eqb k m with
           | Some v => Some (v, w)
           | None => None
           end.

(** [CharacterState = st], recorded in [stateWrites]. *)
Definition SetCharacterState (st : ECharacterState) : M unit :=
  fun w => Some (tt, MkWorld (this w) (set_CharacterState st (self w)) (calls w)
                             (reads w) (stateWrites w ++ [st])).

(** [a || b] with its short circuit. *)
Definition orM (a b : M bool) : M bool :=
  x <- a ;; if (x : bool) then ret true else b.

(** [FGenericPlatformMath::Pow(2, B)]: [powf] on [float]s, at base 2 and an
    [int] exponent, as at its only call site.  [powf] is taken to round
    correctly, so the result is the power of two rounded to binary32: the
    power itself from 2^-149 to 2^127, infinity above and zero below. *)
Definition Pow2 (B : Z) : float := binary_normalize 24 128 1 B false.

Arguments Pow2 : simpl never.

(** [(now - abilityCooldownTime).GetDuration().GetTotalMilliseconds()]: the
    milliseconds between the last use of the ability and [now]. *)
Definition abilityElapsedMs (now : FDateTime) (o : ArenaCharacter) : double :=
  GetTotalMilliseconds (GetDuration (FDateTime_sub now (abilityCooldownTime o))).

Section Members.

(** What a call to a collaborator does to the object: anything. *)
Variable env : Call -> ArenaCharacter -> ArenaCharacter.

(** The successive readings of [FDateTime::Now]. *)
Variable clock : nat -> FDateTime.

(** [FDateTime::Now()]. *)
Definition Now : M FDateTime :=
  fun w => Some (clock (reads w),
                 MkWorld (this w) (self w) (calls w) (S (reads w)) (stateWrites w)).

(** A call to a collaborator: logged, and the object is what the
    collaborator leaves. *)
Definition call (c : Call) : M unit :=
  fun w => Some (tt, MkWorld (this w) (env c (self w)) (calls w ++ [c])
                             (reads w) (stateWrites w)).

(** [AArenaCharacter::AArenaCharacter]. *)
Definition AArenaCharacter_ctor : M unit :=
  modify (fun o => set_MoveInputMap (TMap_Add Direction_eqb North InputReleaseTime (MoveInputMap o)) o) ;;
  modify (fun o => set_MoveInputMap (TMap_Add Direction_eqb East InputReleaseTime (MoveInputMap o)) o) ;;
  modify (fun o => set_MoveInputMap (TMap_Add Direction_eqb South InputReleaseTime (MoveInputMap o)) o) ;;
  modify (fun o => set_MoveInputMap (TMap_Add Direction_eqb West InputReleaseTime (MoveInputMap o)) o) ;;
  call CallAddDynamicAnimationFinished.

(** [AArenaCharacter::SetVelocity]. *)
Definition SetVelocity (speed : Q) (direction : Direction) : M unit :=
  match direction with
  | North => modify (set_Velocity (MkFVector 0 0 speed))
  | East => modify (set_Velocity (MkFVector speed 0 0))
  | South => modify (set_Velocity (MkFVector 0 0 (- speed)))
  | West => modify (set_Velocity (MkFVector (- speed) 0 0))
  end.

(** [AArenaCharacter::Move]. *)
Definition Move : M unit :=
  o <- get ;;
  SetVelocity (MoveSpeed o) (MoveDirection o).

(** [AArenaCharacter::BeginAttack]. *)
Definition BeginAttack (direction : Direction) : M unit :=
  o <- get ;;
  box <- FindChecked (Facing o) (AttackBoxes o) ;;
  call (CallSetCollisionEnabled box QueryAndPhysics) ;;
  modify (set_attackStarted true).

(** [AArenaCharacter::FinishAttack]. *)
Definition FinishAttack : M unit :=
  modify (set_bIsAttacking false) ;;
  modify (set_attackDownTime (-1)) ;;
  modify (set_attackStarted false) ;;
  o <- get ;;
  box <- FindChecked (Facing o) (AttackBoxes o) ;;
  call (CallSetCollisionEnabled box NoCollision).

(** [AArenaCharacter::FinishAbility]. *)
Definition FinishAbility : M unit :=
  modify (set_bIsAbility false) ;;
  modify (set_abilityDownTime (-1)).

(** [AArenaCharacter::Attack]. *)
Definition Attack (other : AArenaActor) (damageModifier : Z) : M unit :=
  me <- getThis ;;
  if Nat.eqb other me then ret tt
  else
    o <- get ;;
    call (CallDamage other (float_mul (AttackDamage o) (Pow2 damageModifier))).

(** [AArenaCharacter::ResetCooldown]. *)
Definition ResetCooldown : M unit :=
  modify (set_abilityCooldownTime (-1)).

(** [MoveInputMap[d] > InputReleaseTime]. *)
Definition keyIsDown (d : Direction) : M bool :=
  o <- get ;;
  t <- FindChecked d (MoveInputMap o) ;;
  ret (FDateTime_gt t InputReleaseTime).

(** [AArenaCharacter::UpdateMovementInput]. *)
Definition UpdateMovementInput (direction : Direction) (keyDown : bool) : M unit :=
  t <- (if keyDown then Now else ret InputReleaseTime) ;;
  o <- get ;;
  match TMap_Assign Direction_eqb direction t (MoveInputMap o) with
  | None => fun _ => None
  | Some m =>
      modify (set_MoveInputMap m) ;;
      b <- orM (keyIsDown North) (orM (keyIsDown West) (orM (keyIsDown South) (keyIsDown East))) ;;
      if (b : bool) then modify (set_bIsMoving true) else modify (set_bIsMoving false)
  end.

(** The [recent] pair before the loop of [UpdateFacing]: a [TPair] built by
    its default constructor, whose key is the enumerator of value 0 and whose
    value is [FDateTime()]. *)
Definition recent_default : Direction * FDateTime := (North, FDateTime_default).

(** One round of the loop of [UpdateFacing]. *)
Definition recent_step (recent pair : Direction * FDateTime) : Direction * FDateTime :=
  if FDateTime_gt (snd pair) (snd recent) then pair else recent.

(** [AArenaCharacter::UpdateFacing]. *)
Definition UpdateFacing : M unit :=
  o <- get ;;
  let recent := fold_left recent_step (MoveInputMap o) recent_default in
  if bIsMoving o then
    modify (set_MoveDirection (fst recent)) ;;
    modify (set_Facing (fst recent))
  else ret tt.

(** [AArenaCharacter::UpdateAttackInput]. *)
Definition UpdateAttackInput (active : bool) : M unit :=
  modify (set_attackKeyDown active) ;;
  o <- get ;;
  if negb (bIsAttacking o) && active then
    modify (set_bIsAttacking true) ;;
    now <- Now ;;
    modify (set_attackDownTime now)
  else ret tt.

(** The test that opens [UpdateAbilityInput]: the ability is cooling down,
    or it is running. *)
Definition abilityLocked (now : FDateTime) (o : ArenaCharacter) : bool :=
  double_lt (abilityElapsedMs now o) (AbilityCooldown o) || bIsAbility o.

(** [AArenaCharacter::UpdateAbilityInput]. *)
Definition UpdateAbilityInput (active : bool) : M unit :=
  modify (set_abilityKeyDown active) ;;
  now <- Now ;;
  o <- get ;;
  if abilityLocked now o then ret tt
  else if active then
    call CallAbilityStart ;;
    modify (set_bIsAbility true) ;;
    pressed <- Now ;;
    modify (set_abilityDownTime pressed) ;;
    used <- Now ;;
    modify (set_abilityCooldownTime used)
  else ret tt.

(** [AArenaCharacter::ResetInput]; [IsInputKeyDown] is the key state reported
    by the player controller, which is taken to exist. *)
Definition ResetInput (IsInputKeyDown : string -> bool) : M unit :=
  UpdateMovementInput North (IsInputKeyDown "W"%string) ;;
  UpdateMovementInput West (IsInputKeyDown "A"%string) ;;
  UpdateMovementInput South (IsInputKeyDown "S"%string) ;;
  UpdateMovementInput East (IsInputKeyDown "D"%string) ;;
  UpdateAbilityInput false ;;
  UpdateAttackInput false.

(** [AArenaCharacter::SetHitbox]. *)
Definition SetHitbox (direction : Direction) (hitbox : UBoxComponent) : M unit :=
  call (CallSetCollisionEnabled hitbox NoCollision) ;;
  modify (fun o => set_AttackBoxes (TMap_Add Direction_eqb direction hitbox (AttackBoxes o)) o).

(** [if (Animations.Contains(Facing)) PlayFlipbook(Animations[Facing], true)]. *)
Definition PlayFacingFlipbook (Animations : ArenaCharacter -> TMap Direction UPaperFlipbook) : M unit :=
  o <- get ;;
  if TMap_Contains Direction_eqb (Facing o) (Animations o) then
    flipbook <- FindChecked (Facing o) (Animations o) ;;
    call (CallPlayFlipbook flipbook true)
  else ret tt.

(** [AArenaCharacter::Tick]. *)
Definition Tick (DeltaSeconds : Q) : M unit :=
  call (CallSuperTick DeltaSeconds) ;;
  o <- get ;;
  match CharacterState o with
  | Idle =>
      UpdateFacing ;;
      call CallIdleState ;;
      PlayFacingFlipbook IdleAnimations ;;
      o <- get ;;
      if bIsMoving o then SetCharacterState Walking
      else if bIsAttacking o then SetCharacterState Attacking
      else if bIsAbility o then SetCharacterState Ability
      else ret tt
  | Walking =>
      UpdateFacing ;;
      call CallWalkingState ;;
      PlayFacingFlipbook WalkingAnimations ;;
      o <- get ;;
      if bIsAttacking o then SetCharacterState Attacking
      else if bIsAbility o then SetCharacterState Ability
      else if negb (bIsMoving o) then
        SetVelocity 0 (Facing o) ;;
        SetCharacterState Idle
      else ret tt
  | Attacking =>
      o <- get ;;
      if negb (bIsAttacking o) && bIsMoving o then SetCharacterState Walking
      else if negb (bIsAttacking o) then SetCharacterState Idle
      else if negb (attackStarted o) then
        now <- Now ;;
        call (CallAttackState (GetTotalMilliseconds (FDateTime_sub now (attackDownTime o)))
                              (attackKeyDown o))
      else ret tt
  | Ability =>
      o <- get ;;
      if negb (bIsAbility o) && bIsMoving o then
        call CallAbilityEnd ;;
        SetCharacterState Walking
      else if negb (bIsAbility o) then
        call CallAbilityEnd ;;
        SetCharacterState Idle
      else
        now <- Now ;;
        call (CallAbilityState (GetTotalMilliseconds (FDateTime_sub now (abilityDownTime o)))
                               (abilityKeyDown o))
  end.

End Members.

(** ** Vocabulary of the specification *)

(** The member functions of ArenaCharacter.cpp that act on a constructed
    object, so that a statement can range over all of them. *)
Inductive Method : Type :=
| MMove
| MSetVelocity (speed : Q) (direction : Direction)
| MBeginAttack (direction : Direction)
| MFinishAttack
| MFinishAbility
| MAttack (other : AArenaActor) (damageModifier : Z)
| MResetInput (IsInputKeyDown : string -> bool)
| MResetCooldown
| MUpdateMovementInput (direction : Direction) (keyDown : bool)
| MUpdateFacing
| MUpdateAttackInput (active : bool)
| MUpdateAbilityInput (active : bool)
| MSetHitbox (direction : Direction) (hitbox : UBoxComponent)
| MTick (DeltaSeconds : Q).

Definition invoke (env : Call -> ArenaCharacter -> ArenaCharacter)
    (clock : nat -> FDateTime) (m : Method) : M unit :=
  match m with
  | MMove => Move
  | MSetVelocity speed direction => SetVelocity speed direction
  | MBeginAttack direction => BeginAttack env direction
  | MFinishAttack => FinishAttack env
  | MFinishAbility => FinishAbility
  | MAttack other damageModifier => Attack env other damageModifier
  | MResetInput keys => ResetInput env clock keys
  | MResetCooldown => ResetCooldown
  | MUpdateMovementInput direction keyDown => UpdateMovementInput clock direction keyDown
  | MUpdateFacing => UpdateFacing
  | MUpdateAttackInput active => UpdateAttackInput clock active
  | MUpdateAbilityInput active => UpdateAbilityInput env clock active
  | MSetHitbox direction hitbox => SetHitbox env direction hitbox
  | MTick DeltaSeconds => Tick env clock DeltaSeconds
  end.

(** The input map as the constructor builds it and [UpdateMovementInput]
    keeps it: one entry per direction, in the order of insertion. *)
Definition wellFormedInputMap (m : TMap Direction FDateTime) : Prop :=
  map fst m = [North; East; South; West].

(** The time stamp the map holds for a direction. *)
Definition stamp (m : TMap Direction FDateTime) (d : Direction) : FDateTime :=
  match TMap_Find Direction_eqb d m with
  | Some t => t
  | None => InputReleaseTime
  end.

(** A direction is held when its entry is more recent than the release
    sentinel. *)
Definition isHeld (m : TMap Direction FDateTime) (d : Direction) : bool :=
  FDateTime_gt (stamp m d) InputReleaseTime.

(** [moving] agrees with the input map. *)
Definition movingInvariant (o : ArenaCharacter) : Prop :=
  bIsMoving o = true <-> exists d, isHeld (MoveInputMap o) d = true.

(** A sequence of [UpdateMovementInput] calls. *)
Fixpoint UpdateMovementInputs (clock : nat -> FDateTime)
    (inputs : list (Direction * bool)) : M unit :=
  match inputs with
  | [] => ret tt
  | (direction, keyDown) :: rest =>
      UpdateMovementInput clock direction keyDown ;;
      UpdateMovementInputs clock rest
  end.

(** The held direction whose time stamp is most recent, the first in the
    enumeration among those that share it. *)
Definition mostRecentHeld (m : TMap Direction FDateTime) (d : Direction) : Prop :=
  isHeld m d = true /\
  (forall d', isHeld m d' = true -> stamp m d' <= stamp m d) /\
  (forall d', isHeld m d' = true -> stamp m d' = stamp m d ->
              (Direction_index d <= Direction_index d')%nat).

(** What the facing resolver is said to do in a world where a direction is
    held. *)
Definition resolveFacingSpec (w : World) : Prop :=
  exists w' d,
    UpdateFacing w = Some (tt, w') /\
    mostRecentHeld (MoveInputMap (self w)) d /\
    Facing (self w') = d /\
    MoveDirection (self w') = d.

(** What [UpdateAttackInput] does to the attack fields when the guard
    [trigger] decides whether an attack starts. *)
Definition attackInputSpec (clock : nat -> FDateTime) (trigger : bool)
    (active : bool) (w : World) : Prop :=
  exists w',
    UpdateAttackInput clock active w = Some (tt, w') /\
    attackKeyDown (self w') = active /\
    if trigger
    then bIsAttacking (self w') = true /\
         attackDownTime (self w') = clock (reads w)
    else bIsAttacking (self w') = bIsAttacking (self w) /\
         attackDownTime (self w') = attackDownTime (self w).

(** [now - abilityCooldownTime] in milliseconds: the time elapsed since the
    last use of the ability, negative when the clock reads an earlier time
    than the one recorded. *)
Definition abilitySinceLastUseMs (now : FDateTime) (o : ArenaCharacter) : double :=
  GetTotalMilliseconds (FDateTime_sub now (abilityCooldownTime o)).

(** What [UpdateAbilityInput(true)] is said to do, when [ignored] tells
    whether the request is dropped: a dropped request stores the key state
    and nothing else; any other one calls [AbilityStart], sets [bIsAbility]
    and stores the next two clock readings in [abilityDownTime] and
    [abilityCooldownTime]. *)
Definition abilityInputSpec (env : Call -> ArenaCharacter -> ArenaCharacter)
    (clock : nat -> FDateTime) (ignored : Prop) (w : World) : Prop :=
  exists w',
    UpdateAbilityInput env clock true w = Some (tt, w') /\
    (ignored ->
       self w' = set_abilityKeyDown true (self w) /\
       calls w' = calls w /\
       bIsAbility (self w') = bIsAbility (self w) /\
       attackDownTime (self w') = attackDownTime (self w) /\
       abilityDownTime (self w') = abilityDownTime (self w) /\
       abilityCooldownTime (self w') = abilityCooldownTime (self w)) /\
    (~ ignored ->
       calls w' = calls w ++ [CallAbilityStart] /\
       bIsAbility (self w') = true /\
       abilityDownTime (self w') = clock (S (reads w)) /\
       abilityCooldownTime (self w') = clock (S (S (reads w)))).

(** What [Attack] is said to do to another actor: one call of its [Damage],
    with an amount that is the number [AttackDamage * 2 ^ damageModifier]. *)
Definition attackSpec (env : Call -> ArenaCharacter -> ArenaCharacter)
    (other : AArenaActor) (damageModifier : Z) (w : World) : Prop :=
  exists w' amount,
    Attack env other damageModifier w = Some (tt, w') /\
    calls w' = calls w ++ [CallDamage other amount] /\
    float_is_finite amount = true /\
    (float_value amount == float_value (AttackDamage (self w)) * 2 ^ damageModifier)%Q.

(** A rising edge of the attack key: it was up, and is now down. *)
Definition risingEdge (w : World) (active : bool) : bool :=
  negb (attackKeyDown (self w)) && active.

(** The statements a case of [Tick] runs before its transition checks. *)
Definition beforeChecks (env : Call -> ArenaCharacter -> ArenaCharacter)
    (st : ECharacterState) : M unit :=
  match st with
  | Idle => UpdateFacing ;; call env CallIdleState ;; PlayFacingFlipbook env IdleAnimations
  | Walking => UpdateFacing ;; call env CallWalkingState ;; PlayFacingFlipbook env WalkingAnimations
  | Attacking | Ability => ret tt
  end.

(** The transition checks of each state, in the order the spec lists them,
    each with the state it leads to. *)
Definition transitionChecks (st : ECharacterState) (o : ArenaCharacter)
    : list (bool * ECharacterState) :=
  match st with
  | Idle => [(bIsMoving o, Walking); (bIsAttacking o, Attacking); (bIsAbility o, Ability)]
  | Walking => [(bIsAttacking o, Attacking); (bIsAbility o, Ability); (negb (bIsMoving o), Idle)]
  | Attacking => [(negb (bIsAttacking o) && bIsMoving o, Walking); (negb (bIsAttacking o), Idle)]
  | Ability => [(negb (bIsAbility o) && bIsMoving o, Walking); (negb (bIsAbility o), Idle)]
  end.

(** The target of the first check that holds. *)
Fixpoint firstMatch (checks : list (bool * ECharacterState)) : option ECharacterState :=
  match checks with
  | [] => None
  | (c, st) :: rest => if c then Some st else firstMatch rest
  end.

(** Collaborators that leave the three attack fields as they find them. *)
Definition keepsAttackFields (env : Call -> ArenaCharacter -> ArenaCharacter) : Prop :=
  forall c o,
    bIsAttacking (env c o) = bIsAttacking o /\
    attackDownTime (env c o) = attackDownTime o /\
    attackStarted (env c o) = attackStarted o.

(** An attack in progress goes on: from [o] to [o'] it stays active, its press
    time stays, and an opened hitbox stays opened. *)
Definition attackGoesOn (o o' : ArenaCharacter) : Prop :=
  bIsAttacking o = true ->
  bIsAttacking o' = true /\
  attackDownTime o' = attackDownTime o /\
  (attackStarted o = true -> attackStarted o' = true).

(** A computation that never ends an attack in progress. *)
Definition keepsAttack {A : Type} (m : M A) : Prop :=
  forall w a w', m w = Some (a, w') -> attackGoesOn (self w) (self w').

(** ** Sample objects and worlds *)

Definition sampleCharacter : ArenaCharacter :=
  {| MoveInputMap := [(North, -1); (East, -1); (South, -1); (West, -1)];
     bIsMoving := false;
     MoveDirection := South;
     Facing := South;
     MoveSpeed := 300 # 1;
     Velocity := MkFVector 0 0 0;
     AttackBoxes := [(North, 11%nat); (East, 12%nat); (South, 13%nat); (West, 14%nat)];
     AttackDamage := float_of_int 10;
     attackKeyDown := false;
     bIsAttacking := false;
     attackDownTime := -1;
     attackStarted := false;
     abilityKeyDown := false;
     bIsAbility := false;
     abilityDownTime := -1;
     abilityCooldownTime := -1;
     AbilityCooldown := double_of_int64 1000;
     CharacterState := Idle;
     IdleAnimations := [(South, 21%nat)];
     WalkingAnimations := [(South, 31%nat)] |}.

Definition sampleWorld (o : ArenaCharacter) : World :=
  {| this := 1%nat; self := o; calls := []; reads := 0%nat; stateWrites := [] |}.

(** Collaborators that do nothing to the object. *)
Definition quietEnv : Call -> ArenaCharacter -> ArenaCharacter := fun _ o => o.

(** A clock that starts at tick 638000000000000000 and advances by one tick
    per reading. *)
Definition sampleClock : nat -> FDateTime := fun n => 638000000000000000 + Z.of_nat n.

(** A clock whose every reading is tick 0. *)
Definition zeroClock : nat -> FDateTime := fun _ => 0.

(** A wall clock that is set back by two seconds after its third reading. *)
Definition steppedBackClock : nat -> FDateTime :=
  fun n => if (n <? 3)%nat then 638000000020000000 + Z.of_nat n
           else 638000000000000000 + Z.of_nat n.


(** A Blueprint whose walking hook calls [Move], and which does nothing
    else. *)
Definition walkerEnv : Call -> ArenaCharacter -> ArenaCharacter :=
  fun c o =>
    match c with
    | CallWalkingState =>
        match Move (sampleWorld o) with
        | Some (_, w') => self w'
        | None => o
        end
    | _ => o
    end.

(** The ability was last used 500 ms before the first reading of
    [sampleClock]. *)
Definition coolingCharacter : ArenaCharacter :=
  set_abilityCooldownTime (638000000000000000 - 5000000) sampleCharacter.

(** The ability was used at the third reading of [steppedBackClock] and has
    finished; the key has been released, at the fourth reading. *)
Definition usedAheadCharacter : ArenaCharacter :=
  set_abilityCooldownTime 638000000020000002 sampleCharacter.

Definition usedAheadWorld : World :=
  {| this := 1%nat; self := usedAheadCharacter; calls := [CallAbilityStart];
     reads := 4%nat; stateWrites := [] |}.

(** Walking north at full speed, with every key released. *)
Definition walkingCharacter : ArenaCharacter :=
  set_CharacterState Walking
    (set_Velocity (MkFVector 0 0 (300 # 1))
       (set_Facing North (set_MoveDirection North sampleCharacter))).

(** East, South and West held; South and West pressed at the same tick,
    after East. *)
Definition tieCharacter : ArenaCharacter :=
  set_bIsMoving true
    (set_MoveInputMap [(North, -1); (East, 100); (South, 200); (West, 200)] sampleCharacter).

(** East alone held, pressed when the clock read tick 0. *)
Definition tickZeroCharacter : ArenaCharacter :=
  set_bIsMoving true
    (set_MoveInputMap [(North, -1); (East, 0); (South, -1); (West, -1)] sampleCharacter).

(** An attack is in progress, started at the first reading of [sampleClock],
    and the attack key has been released. *)
Definition attackingCharacter : ArenaCharacter :=
  set_attackDownTime 638000000000000000 (set_bIsAttacking true sampleCharacter).

(** The worlds of the two characters above, after the one clock reading that
    leads to them. *)
Definition tickZeroWorld : World :=
  {| this := 1%nat; self := tickZeroCharacter; calls := []; reads := 1%nat; stateWrites := [] |}.

Definition attackingWorld : World :=
  {| this := 1%nat; self := attackingCharacter; calls := []; reads := 1%nat; stateWrites := [] |}.

(** The latest input a sequence holds for a direction, if it holds one. *)
Fixpoint lastInput (d : Direction) (inputs : list (Direction * bool)) : option bool :=
  match inputs with
  | [] => None
  | (direction, keyDown) :: rest =>
      match lastInput d rest with
      | Some k => Some k
      | None => if Direction_eqb d direction then Some keyDown else None
      end
  end.

(** ** Vocabulary of the further properties *)

(** Collaborators that do not write to the object. *)
Definition silent (env : Call -> ArenaCharacter -> ArenaCharacter) : Prop :=
  forall c o, env c o = o.

(** Collaborators that leave the facing and the registered hitboxes alone. *)
Definition keepsHitboxes (env : Call -> ArenaCharacter -> ArenaCharacter) : Prop :=
  forall c o, Facing (env c o) = Facing o /\ AttackBoxes (env c o) = AttackBoxes o.

(** Collaborators that leave the input map and [bIsMoving] alone. *)
Definition keepsInput (env : Call -> ArenaCharacter -> ArenaCharacter) : Prop :=
  forall c o, MoveInputMap (env c o) = MoveInputMap o /\ bIsMoving (env c o) = bIsMoving o.

(** The input map has its four entries and [bIsMoving] agrees with it. *)
Definition inputInvariant (o : ArenaCharacter) : Prop :=
  wellFormedInputMap (MoveInputMap o) /\ movingInvariant o.

(** A computation that keeps [inputInvariant]. *)
Definition keepsInputInvariant {A : Type} (m : M A) : Prop :=
  forall w a w', inputInvariant (self w) -> m w = Some (a, w') -> inputInvariant (self w').

(** The square of the length of a vector. *)
Definition squaredLength (v : FVector) : Q :=
  (X v * X v + Y v * Y v + Z_ v * Z_ v)%Q.

(** A sequence of [UpdateAttackInput] calls. *)
Fixpoint UpdateAttackInputs (clock : nat -> FDateTime) (inputs : list bool) : M unit :=
  match inputs with
  | [] => ret tt
  | active :: rest =>
      UpdateAttackInput clock active ;;
      UpdateAttackInputs clock rest
  end.

(** The changes of state found in [Tick]: out of Idle or Walking to any other
    state, and out of Attacking or Ability to Walking or Idle. *)
Definition tickEdge (from to : ECharacterState) : bool :=
  match from, to with
  | Idle, Walking | Idle, Attacking | Idle, Ability => true
  | Walking, Attacking | Walking, Ability | Walking, Idle => true
  | Attacking, Walking | Attacking, Idle => true
  | Ability, Walking | Ability, Idle => true
  | _, _ => false
  end.

(** A character in the Attacking state with its attack finished, and one in
    the Ability state with its ability finished. *)
Definition attackDoneCharacter : ArenaCharacter :=
  set_CharacterState Attacking sampleCharacter.

Definition abilityDoneCharacter : ArenaCharacter :=
  set_CharacterState Ability sampleCharacter.

(** An idle character that is moving and attacking. *)
Definition busyCharacter : ArenaCharacter :=
  set_bIsAttacking true tieCharacter.

(** ** Basic facts *)

Ltac open_world w :=
  let t := fresh "this0" in
  let o := fresh "o" in
  let c := fresh "log" in
  let r := fresh "n" in
  let s := fresh "writes" in
  destruct w as [t o c r s]; destruct o.

(** Case analysis on the time stamp comparisons of the goal, innermost
    first. *)
Ltac no_branch_inside t :=
  lazymatch t with
  | context [if _ then _ else _] => fail
  | _ => idtac
  end.

Ltac split_stamps :=
  repeat (match goal with
          | |- context [FDateTime_gt ?a ?b] =>
              no_branch_inside a; no_branch_inside b;
              destruct (FDateTime_gt a b) eqn:?
          end; cbn).

Ltac stamps_to_Z :=
  unfold FDateTime_gt, FDateTime_default, InputReleaseTime in *;
  repeat match goal with
         | H : (_ <? _) = true |- _ => apply Z.ltb_lt in H
         | H : (_ <? _) = false |- _ => apply Z.ltb_ge in H
         end.

(** *** Single precision powers of two and products with them *)

(** From 2^-126 up the power is a normal [float] with the mantissa 2^23, and
    from 2^128 up it is the positive infinity. *)
Lemma Pow2_above (n : Z) :
  -126 <= n ->
  Pow2 n = if n <=? 127 then S754_finite false 8388608 (n - 23) else S754_infinity false.
Proof.
  intro Hn. unfold Pow2, binary_normalize, binary_round.
  change (Zpos (digits2_pos 1)) with 1.
  unfold fexp, emin. change (3 - 128 - 24) with (-149).
  rewrite Z.max_l by lia.
  unfold shl_align. replace (1 + n - 24 - n) with (-23) by lia.
  cbn [Pos.iter].
  unfold binary_round_aux, shr_fexp, fexp, emin.
  change (Zdigits2 (Zpos 8388608)) with 24.
  change (3 - 128 - 24) with (-149).
  rewrite Z.max_l by lia.
  replace (24 + (1 + n - 24) - 24 - (1 + n - 24)) with 0 by lia.
  cbn [shr shr_record_of_loc shr_m loc_of_shr_record round_nearest_even].
  change (Zdigits2 (Zpos 8388608)) with 24.
  rewrite Z.max_l by lia.
  replace (24 + (1 + n - 24) - 24 - (1 + n - 24)) with 0 by lia.
  cbn [shr shr_record_of_loc shr_m].
  change (128 - 24) with 104.
  replace (1 + n - 24) with (n - 23) by lia.
  destruct (Z.leb_spec (n - 23) 104), (Z.leb_spec n 127); try reflexivity; lia.
Qed.

(** Shifting the mantissa 1 right: one step leaves a half, any further step
    leaves less than a half. *)
Lemma shr_1_sticky (p : positive) :
  iter_pos shr_1 p (Build_shr_record 0 false true) = Build_shr_record 0 false true.
Proof.
  induction p as [p IH|p IH|]; cbn [iter_pos].
  - change (shr_1 (Build_shr_record 0 false true)) with (Build_shr_record 0 false true).
    now rewrite !IH.
  - now rewrite !IH.
  - reflexivity.
Qed.

Lemma shr_1_half (p : positive) :
  iter_pos shr_1 p (Build_shr_record 0 true false) = Build_shr_record 0 false true.
Proof.
  induction p as [p IH|p IH|]; cbn [iter_pos].
  - change (shr_1 (Build_shr_record 0 true false)) with (Build_shr_record 0 false true).
    now rewrite !shr_1_sticky.
  - rewrite IH. apply shr_1_sticky.
  - reflexivity.
Qed.

Lemma shr_1_one (p : positive) :
  iter_pos shr_1 p (Build_shr_record 1 false false) =
  if (p =? 1)%positive then Build_shr_record 0 true false else Build_shr_record 0 false true.
Proof.
  induction p as [p IH|p IH|]; cbn [iter_pos Pos.eqb].
  - change (shr_1 (Build_shr_record 1 false false)) with (Build_shr_record 0 true false).
    now rewrite shr_1_half, shr_1_sticky.
  - rewrite IH. destruct (p =? 1)%positive; [apply shr_1_half|apply shr_1_sticky].
  - reflexivity.
Qed.

(** From 2^-150 down the power is rounded to zero. *)
Lemma Pow2_below (n : Z) :
  n <= -150 -> Pow2 n = S754_zero false.
Proof.
  intro Hn. unfold Pow2, binary_normalize, binary_round.
  change (Zpos (digits2_pos 1)) with 1.
  unfold fexp, emin. change (3 - 128 - 24) with (-149).
  rewrite Z.max_r by lia.
  unfold shl_align.
  destruct (-149 - n) as [|p|p] eqn:Ep; try lia.
  unfold binary_round_aux, shr_fexp, fexp, emin.
  change (Zdigits2 1) with 1.
  change (3 - 128 - 24) with (-149).
  rewrite Z.max_r by lia. rewrite Ep.
  cbn [shr shr_record_of_loc]. rewrite shr_1_one.
  replace (n + Z.pos p) with (-149) by lia.
  destruct (p =? 1)%positive; reflexivity.
Qed.

(** The product of a normal [float] and a normal power of two is exact while
    its exponent stays in range: the mantissa is kept and the exponent
    moved. *)
Lemma float_mul_Pow2 (s : bool) (m : positive) (e n : Z) :
  digits2_pos m = 24%positive ->
  -126 <= n <= 127 ->
  -149 <= e + n <= 104 ->
  float_mul (S754_finite s m e) (Pow2 n) = S754_finite s m (e + n).
Proof.
  intros Hm Hn He. rewrite Pow2_above by lia.
  destruct (Z.leb_spec n 127); [|lia].
  unfold float_mul, SFmul. rewrite xorb_false_r.
  rewrite (Pos.mul_comm m). cbn [Pos.mul].
  unfold binary_round_aux, shr_fexp, fexp, emin.
  cbn [Zdigits2 digits2_pos]. rewrite Hm.
  change (3 - 128 - 24) with (-149).
  cbn [Pos.succ].
  rewrite Z.max_l by lia.
  replace (47 + (e + (n - 23)) - 24 - (e + (n - 23))) with 23 by lia.
  cbn [shr shr_record_of_loc iter_pos shr_1 orb shr_m loc_of_shr_record round_nearest_even].
  cbn [Zdigits2]. rewrite Hm.
  rewrite Z.max_l by lia.
  replace (24 + (e + (n - 23) + 23) - 24 - (e + (n - 23) + 23)) with 0 by lia.
  cbn [shr shr_m].
  change (128 - 24) with 104.
  replace (e + (n - 23) + 23) with (e + n) by lia.
  destruct (Z.leb_spec (e + n) 104); [reflexivity|lia].
Qed.

(** Moving the exponent by [n] multiplies the number by [2 ^ n]. *)
Lemma float_value_shift (s : bool) (m : positive) (e n : Z) :
  (float_value (S754_finite s m (e + n)) == float_value (S754_finite s m e) * 2 ^ n)%Q.
Proof.
  cbn [float_value]. rewrite Qpower_plus by discriminate. ring.
Qed.

(** *** Comparison of doubles *)

(** [x <= y] excludes [y < x]. *)
Lemma double_le_not_lt (x y : double) :
  double_le x y = true -> double_lt y x = false.
Proof.
  unfold double_le, double_lt, SFleb, SFltb.
  destruct x as [sx|sx| |sx mx ex], y as [sy|sy| |sy my ey]; cbn;
    try destruct sx; try destruct sy; try reflexivity; try discriminate.
  - rewrite (Z.compare_antisym ex ey).
    destruct (ex ?= ey); cbn; try reflexivity; try discriminate.
    change (Pos.compare_cont Eq my mx) with (my ?= mx)%positive.
    change (Pos.compare_cont Eq mx my) with (mx ?= my)%positive.
    rewrite (Pos.compare_antisym mx my).
    destruct (mx ?= my)%positive; cbn; try reflexivity; discriminate.
  - rewrite (Z.compare_antisym ex ey).
    destruct (ex ?= ey); cbn; try reflexivity; try discriminate.
    change (Pos.compare_cont Eq my mx) with (my ?= mx)%positive.
    change (Pos.compare_cont Eq mx my) with (mx ?= my)%positive.
    rewrite (Pos.compare_antisym mx my).
    destruct (mx ?= my)%positive; cbn; try reflexivity; discriminate.
Qed.

(** *** The input map *)

Lemma wellFormedInputMap_inv (m : TMap Direction FDateTime) :
  wellFormedInputMap m ->
  exists tn te ts tw, m = [(North, tn); (East, te); (South, ts); (West, tw)].
Proof.
  unfold wellFormedInputMap. intro H.
  destruct m as [|[k1 t1] [|[k2 t2] [|[k3 t3] [|[k4 t4] [|? ?]]]]]; try discriminate.
  simpl in H. injection H as -> -> -> ->.
  now exists t1, t2, t3, t4.
Qed.

Lemma abilityLocked_spec (now : FDateTime) (o : ArenaCharacter) :
  abilityLocked now o = true <->
  double_lt (abilityElapsedMs now o) (AbilityCooldown o) = true \/ bIsAbility o = true.
Proof.
  unfold abilityLocked. apply orb_true_iff.
Qed.

Lemma movingInvariant_intro (m : TMap Direction FDateTime) (b : bool) (o : ArenaCharacter) :
  MoveInputMap o = m ->
  bIsMoving o = b ->
  b = (isHeld m North || isHeld m West || isHeld m South || isHeld m East) ->
  movingInvariant o.
Proof.
  intros Hm Hb ->. unfold movingInvariant. rewrite Hm, Hb. split.
  - intro H. repeat (apply orb_true_iff in H; destruct H as [H|H]); eauto.
  - intros [[] H]; rewrite H; repeat rewrite orb_true_r; reflexivity.
Qed.

Lemma attackGoesOn_refl (o : ArenaCharacter) : attackGoesOn o o.
Proof. unfold attackGoesOn. auto. Qed.

Lemma attackGoesOn_trans (o1 o2 o3 : ArenaCharacter) :
  attackGoesOn o1 o2 -> attackGoesOn o2 o3 -> attackGoesOn o1 o3.
Proof.
  unfold attackGoesOn. intros H12 H23 Hactive.
  destruct (H12 Hactive) as (Ha & Ht & Hs).
  destruct (H23 Ha) as (Ha' & Ht' & Hs').
  repeat split; auto. congruence.
Qed.

Section Claims.

Variable env : Call -> ArenaCharacter -> ArenaCharacter.
Variable clock : nat -> FDateTime.

(** *** The constructor *)

(** The constructor fills an empty input map with the four directions, all
    released, in the order North, East, South, West. *)
Lemma AArenaCharacter_ctor_inputMap (w : World) :
  MoveInputMap (self w) = [] ->
  exists w',
    AArenaCharacter_ctor env w = Some (tt, w') /\
    self w' = env CallAddDynamicAnimationFinished
                  (set_MoveInputMap
                     [(North, InputReleaseTime); (East, InputReleaseTime);
                      (South, InputReleaseTime); (West, InputReleaseTime)] (self w)).
Proof.
  intro Hempty. open_world w. cbn in Hempty. subst.
  unfold AArenaCharacter_ctor, bind, modify, call. cbn.
  eexists. split; reflexivity.
Qed.

(** *** Movement input *)

(** One call of [UpdateMovementInput] on a well-formed map succeeds, writes
    the entry of its direction only, reads the clock only for a press, and
    leaves [bIsMoving] in agreement with the map. *)
Lemma UpdateMovementInput_step (w : World) (direction : Direction) (keyDown : bool) :
  wellFormedInputMap (MoveInputMap (self w)) ->
  exists w',
    UpdateMovementInput clock direction keyDown w = Some (tt, w') /\
    wellFormedInputMap (MoveInputMap (self w')) /\
    movingInvariant (self w') /\
    reads w' = (if keyDown then S (reads w) else reads w) /\
    forall d, stamp (MoveInputMap (self w')) d =
              if Direction_eqb d direction
              then (if keyDown then clock (reads w) else InputReleaseTime)
              else stamp (MoveInputMap (self w)) d.
Proof.
  intro Hwf. apply wellFormedInputMap_inv in Hwf.
  destruct Hwf as (tn & te & ts & tw & Hm).
  open_world w. cbn in Hm. subst.
  unfold UpdateMovementInput, orM, keyIsDown, bind, modify, get, Now, ret, FindChecked.
  destruct direction, keyDown; cbn.
  all: split_stamps.
  all: eexists; split; [reflexivity|]; split; [reflexivity|].
  all: split; [|split; [reflexivity|intros []; reflexivity]].
  all: eapply movingInvariant_intro; [reflexivity|reflexivity|].
  all: unfold isHeld, stamp; cbn.
  all: repeat match goal with
         | H : FDateTime_gt _ _ = _ |- _ => rewrite H; clear H
         end; reflexivity.
Qed.

(** A sequence of [UpdateMovementInput] calls on a well-formed map succeeds
    and keeps the map well formed; [bIsMoving] agrees with the map after it;
    and with a clock that reads valid times, a direction is held after it
    exactly when its latest input was a press (or, with no input for it, when
    it was held before). *)
Lemma UpdateMovementInputs_run (inputs : list (Direction * bool)) (w : World) :
  wellFormedInputMap (MoveInputMap (self w)) ->
  exists w',
    UpdateMovementInputs clock inputs w = Some (tt, w') /\
    wellFormedInputMap (MoveInputMap (self w')) /\
    ((inputs = [] -> movingInvariant (self w)) -> movingInvariant (self w')) /\
    ((forall i, FDateTime_gt (clock i) InputReleaseTime = true) ->
     forall d, isHeld (MoveInputMap (self w')) d =
               match lastInput d inputs with
               | Some k => k
               | None => isHeld (MoveInputMap (self w)) d
               end).
Proof.
  revert w. induction inputs as [|[direction keyDown] rest IH]; intros w Hwf.
  - exists w. split; [reflexivity|]. split; [exact Hwf|]. split.
    + intro Hinv. exact (Hinv eq_refl).
    + reflexivity.
  - destruct (UpdateMovementInput_step w direction keyDown Hwf)
      as (w1 & Hrun & Hwf1 & Hinv1 & _ & Hstamp).
    destruct (IH w1 Hwf1) as (w' & Hrest & Hwf' & Hinv' & Hheld).
    exists w'. cbn [UpdateMovementInputs]. unfold bind at 1. rewrite Hrun.
    split; [exact Hrest|]. split; [exact Hwf'|]. split.
    + intros _. apply Hinv'. intros _. exact Hinv1.
    + intros Hclock d. rewrite (Hheld Hclock). cbn [lastInput].
      destruct (lastInput d rest); [reflexivity|].
      unfold isHeld at 1. rewrite Hstamp.
      destruct (Direction_eqb d direction); [|reflexivity].
      destruct keyDown; [apply Hclock|reflexivity].
Qed.

(** C3: after any sequence of [UpdateMovementInput] calls on an object whose
    input map has its four entries, [bIsMoving] is true exactly when some
    entry is more recent than the release sentinel.  The empty sequence
    changes nothing, so for it the object must start in agreement, as a
    constructed object with [bIsMoving] false does. *)
Theorem moving_iff_some_direction_held (inputs : list (Direction * bool)) (w : World) :
  wellFormedInputMap (MoveInputMap (self w)) ->
  (inputs = [] -> movingInvariant (self w)) ->
  exists w',
    UpdateMovementInputs clock inputs w = Some (tt, w') /\
    wellFormedInputMap (MoveInputMap (self w')) /\
    (bIsMoving (self w') = true <->
     exists d, FDateTime_gt (stamp (MoveInputMap (self w')) d) InputReleaseTime = true).
Proof.
  intros Hwf Hinv.
  destruct (UpdateMovementInputs_run inputs w Hwf) as (w' & Hrun & Hwf' & Hmoving & _).
  exists w'. split; [exact Hrun|]. split; [exact Hwf'|]. exact (Hmoving Hinv).
Qed.

(** In terms of the keys: starting with every direction released and with a
    clock that reads valid times, after a sequence of at least one input
    [bIsMoving] is true exactly when the latest input of some direction was a
    press. *)
Lemma moving_iff_some_key_down (inputs : list (Direction * bool)) (w : World) :
  (forall i, FDateTime_gt (clock i) InputReleaseTime = true) ->
  wellFormedInputMap (MoveInputMap (self w)) ->
  (forall d, isHeld (MoveInputMap (self w)) d = false) ->
  inputs <> [] ->
  exists w',
    UpdateMovementInputs clock inputs w = Some (tt, w') /\
    (bIsMoving (self w') = true <-> exists d, lastInput d inputs = Some true).
Proof.
  intros Hclock Hwf Hreleased Hsome.
  destruct (UpdateMovementInputs_run inputs w Hwf) as (w' & Hrun & _ & Hmoving & Hheld).
  exists w'. split; [exact Hrun|].
  assert (Hinv : movingInvariant (self w')) by (apply Hmoving; intro; contradiction).
  unfold movingInvariant in Hinv. rewrite Hinv.
  split; intros [d Hd]; exists d.
  - rewrite (Hheld Hclock) in Hd. destruct (lastInput d inputs) as [k|].
    + now subst k.
    + rewrite Hreleased in Hd. discriminate.
  - rewrite (Hheld Hclock), Hd. reflexivity.
Qed.

(** *** Facing *)

(** When [bIsMoving] is true and some direction's time stamp is later than
    tick 0, the time of a default-constructed [FDateTime], [UpdateFacing]
    sets [Facing] and [MoveDirection] to the held direction with the most
    recent time stamp, the first of North, East, South, West among those
    that share it. *)
Lemma UpdateFacing_later_than_default (w : World) :
  wellFormedInputMap (MoveInputMap (self w)) ->
  bIsMoving (self w) = true ->
  (exists d, FDateTime_default < stamp (MoveInputMap (self w)) d) ->
  resolveFacingSpec w.
Proof.
  intros Hwf Hmoving Hlater. apply wellFormedInputMap_inv in Hwf.
  destruct Hwf as (tn & te & ts & tw & Hm).
  open_world w. cbn in Hm, Hmoving, Hlater. subst.
  unfold resolveFacingSpec, UpdateFacing, bind, modify, get, ret.
  cbn. unfold recent_step, recent_default. cbn.
  split_stamps.
  all: do 2 eexists; split; [reflexivity|]; split; [|split; reflexivity].
  all: destruct Hlater as [d Hlater]; unfold stamp in Hlater.
  all: unfold mostRecentHeld, isHeld, stamp.
  all: destruct d; cbn in Hlater |- *; stamps_to_Z.
  all: try (exfalso; lia).
  all: split; [apply Z.ltb_lt; lia|].
  all: split; intros d' Hd'; destruct d'; cbn in Hd' |- *; stamps_to_Z; lia.
Qed.

(** After a sequence of [UpdateMovementInput] calls every time stamp of the
    map is the one it had, the release sentinel, or a reading of the
    clock. *)
Lemma UpdateMovementInputs_stamps (inputs : list (Direction * bool)) (w w' : World) :
  wellFormedInputMap (MoveInputMap (self w)) ->
  UpdateMovementInputs clock inputs w = Some (tt, w') ->
  wellFormedInputMap (MoveInputMap (self w')) /\
  forall d, stamp (MoveInputMap (self w')) d = stamp (MoveInputMap (self w)) d \/
            stamp (MoveInputMap (self w')) d = InputReleaseTime \/
            exists i, stamp (MoveInputMap (self w')) d = clock i.
Proof.
  revert w. induction inputs as [|[direction keyDown] rest IH]; intros w Hwf Hrun.
  - cbn in Hrun. injection Hrun as Hrun. subst w'. split; [exact Hwf|]. intro d. now left.
  - destruct (UpdateMovementInput_step w direction keyDown Hwf)
      as (w1 & Hstep & Hwf1 & _ & _ & Hstamp).
    cbn [UpdateMovementInputs] in Hrun. unfold bind at 1 in Hrun. rewrite Hstep in Hrun.
    destruct (IH w1 Hwf1 Hrun) as (Hwf' & Hrest).
    split; [exact Hwf'|]. intro d.
    destruct (Hrest d) as [Hsame|Hother]; [|now right].
    rewrite Hsame, Hstamp.
    destruct (Direction_eqb d direction); [|now left].
    destruct keyDown; right; [right; now exists (reads w)|now left].
Qed.

(** C2: take the input map as the constructor builds it, or any map with
    its four entries none of which is stamped tick 0, and any sequence of
    [UpdateMovementInput] calls with a clock that reads times later than
    tick 0, as a wall clock does.  In the state reached, when a direction is
    held and [bIsMoving] is true, [UpdateFacing] sets [Facing] and
    [MoveDirection] to the held direction with the most recent time stamp,
    the first of North, East, South, West among those that share it. *)
Theorem UpdateFacing_most_recent_held (inputs : list (Direction * bool)) (w w1 : World) :
  (forall i, FDateTime_default < clock i) ->
  wellFormedInputMap (MoveInputMap (self w)) ->
  (forall d, stamp (MoveInputMap (self w)) d <> FDateTime_default) ->
  UpdateMovementInputs clock inputs w = Some (tt, w1) ->
  (exists d, isHeld (MoveInputMap (self w1)) d = true) ->
  bIsMoving (self w1) = true ->
  resolveFacingSpec w1.
Proof.
  intros Hclock Hwf Hstart Hrun [d Hheld] Hmoving.
  destruct (UpdateMovementInputs_stamps inputs w w1 Hwf Hrun) as (Hwf1 & Hstamps).
  apply UpdateFacing_later_than_default; [exact Hwf1|exact Hmoving|].
  exists d. unfold isHeld in Hheld. stamps_to_Z.
  destruct (Hstamps d) as [Hsame|[Hreleased|[i Hread]]].
  - specialize (Hstart d). rewrite <- Hsame in Hstart.
    unfold FDateTime_default in Hstart. lia.
  - rewrite Hreleased in Hheld. unfold InputReleaseTime in Hheld. lia.
  - rewrite Hread. apply Hclock.
Qed.

(** C8: while [bIsMoving] is false, [UpdateFacing] changes nothing; facing
    and move direction are the ones the character had. *)
Theorem UpdateFacing_idle_keeps_facing (w : World) :
  bIsMoving (self w) = false ->
  exists w',
    UpdateFacing w = Some (tt, w') /\
    w' = w /\
    Facing (self w') = Facing (self w) /\
    MoveDirection (self w') = MoveDirection (self w).
Proof.
  intro Hstill. exists w.
  unfold UpdateFacing, bind, get. rewrite Hstill.
  repeat split.
Qed.

(** *** Attack and ability input *)

(** C7, amended: [UpdateAttackInput] always stores its argument in
    [attackKeyDown]; when no attack is active and the argument is true it
    sets [bIsAttacking] and records the clock reading in [attackDownTime];
    on any other call it changes neither. *)
Theorem UpdateAttackInput_guard (w : World) (active : bool) :
  attackInputSpec clock (negb (bIsAttacking (self w)) && active) active w.
Proof.
  unfold attackInputSpec.
  open_world w. unfold UpdateAttackInput, bind, modify, get, Now, ret. cbn.
  destruct bIsAttacking0, active; cbn; eexists; repeat split.
Qed.

(** C1, amended: a call [UpdateAbilityInput(true)] first reads the clock.
    If the magnitude of the span between the last use of the ability and
    that reading, in milliseconds, is below [AbilityCooldown], or the ability
    is active, the call stores the key state and nothing else: no
    collaborator is called, [bIsAbility] and the three timers stay.
    Otherwise it calls [AbilityStart], sets [bIsAbility], and stores the next
    two clock readings in [abilityDownTime] and [abilityCooldownTime]. *)
Theorem UpdateAbilityInput_pressed (w : World) :
  abilityInputSpec env clock
    (double_lt (abilityElapsedMs (clock (reads w)) (self w)) (AbilityCooldown (self w)) = true
     \/ bIsAbility (self w) = true) w.
Proof.
  unfold abilityInputSpec.
  set (now := clock (reads w)).
  set (locked := double_lt (abilityElapsedMs now (self w)) (AbilityCooldown (self w)) = true
                 \/ bIsAbility (self w) = true).
  assert (Hspec : abilityLocked now (set_abilityKeyDown true (self w)) = true <-> locked).
  { rewrite abilityLocked_spec. subst locked now. destruct w as [? [] ? ? ?]. reflexivity. }
  unfold UpdateAbilityInput, bind, modify, get, Now, call, ret. cbn [self reads].
  fold now.
  destruct (abilityLocked now (set_abilityKeyDown true (self w))) eqn:E.
  - eexists. split; [reflexivity|]. split.
    + intros _. destruct w as [? [] ? ? ?]. cbn. repeat split.
    + intro Hn. exfalso. apply Hn, Hspec. reflexivity.
  - eexists. split; [reflexivity|]. split.
    + intro Hl. apply Hspec in Hl. discriminate.
    + intros _. cbn.
      destruct (env CallAbilityStart (set_abilityKeyDown true (self w))).
      cbn. repeat split.
Qed.

(** *** Attack resolution *)

(** C4, amended: for a target other than the character itself and any
    integer modifier n, [Attack] makes exactly one call to a collaborator,
    the target's [Damage], with the single precision product of
    [AttackDamage] and the single precision power 2^n.  When [AttackDamage]
    is a normal [float], n lies between -126 and 127 and the exponent of the
    product stays in the range of the finite floats, that amount is the
    number [AttackDamage * 2 ^ n] exactly (10 and 2 give 40). *)
Theorem Attack_other_applies_damage (w : World) (other : AArenaActor) (damageModifier : Z) :
  other <> this w ->
  exists w',
    let amount := float_mul (AttackDamage (self w)) (Pow2 damageModifier) in
    Attack env other damageModifier w = Some (tt, w') /\
    calls w' = calls w ++ [CallDamage other amount] /\
    self w' = env (CallDamage other amount) (self w) /\
    forall s m e,
      AttackDamage (self w) = S754_finite s m e ->
      digits2_pos m = 24%positive ->
      -126 <= damageModifier <= 127 ->
      -149 <= e + damageModifier <= 104 ->
      amount = S754_finite s m (e + damageModifier) /\
      attackSpec env other damageModifier w.
Proof.
  intro Hother.
  assert (Hrun : Attack env other damageModifier w =
                 Some (tt, MkWorld (this w)
                             (env (CallDamage other
                                     (float_mul (AttackDamage (self w)) (Pow2 damageModifier)))
                                  (self w))
                             (calls w ++ [CallDamage other
                                            (float_mul (AttackDamage (self w))
                                               (Pow2 damageModifier))])
                             (reads w) (stateWrites w))).
  { unfold Attack, bind, getThis.
    destruct (Nat.eqb other (this w)) eqn:E; [|reflexivity].
    apply Nat.eqb_eq in E. contradiction. }
  eexists. cbv zeta. split; [exact Hrun|]. split; [reflexivity|]. split; [reflexivity|].
  intros s m e Hbase Hm Hn He.
  assert (Hexact : float_mul (AttackDamage (self w)) (Pow2 damageModifier)
                   = S754_finite s m (e + damageModifier)).
  { rewrite Hbase. now apply float_mul_Pow2. }
  split; [exact Hexact|].
  unfold attackSpec. eexists. eexists. split; [exact Hrun|].
  split; [reflexivity|]. rewrite Hexact, Hbase. split; [reflexivity|].
  apply float_value_shift.
Qed.

(** C9: [Attack] with the character itself as target does nothing at all,
    whatever the modifier: the world it returns is the world it was given,
    so no call is made and no field changes. *)
Theorem Attack_self_noop (w : World) (damageModifier : Z) :
  Attack env (this w) damageModifier w = Some (tt, w).
Proof.
  unfold Attack, bind, getThis.
  now rewrite Nat.eqb_refl.
Qed.

(** *** The state loop *)

Ltac no_call_inside o :=
  lazymatch o with
  | context [env _ _] => fail
  | _ => idtac
  end.

(** Runs [Tick] symbolically: names what each collaborator leaves,
    innermost call first, and splits on every flag and lookup met. *)
Ltac run_tick :=
  repeat (cbn;
          match goal with
          | |- context [env ?c ?o] =>
              no_call_inside o; destruct (env c o) eqn:?
          | |- context [TMap_Find Direction_eqb ?k ?m] =>
              destruct (TMap_Find Direction_eqb k m) eqn:?
          | |- context [if ?b then _ else _] => is_var b; destruct b
          | |- context [negb ?b] => is_var b; destruct b
          | |- context [match ?d with North => _ | _ => _ end] => is_var d; destruct d
          end).

(** C5: a tick runs [Super::Tick], then the statements of the current
    state's case that precede its checks, then the checks in the listed order
    (Idle: Walking, Attacking, Ability; Walking: Attacking, Ability, Idle);
    the first check that holds, with the flags as they are at that point,
    gives the one value the tick assigns to [CharacterState], and when none
    holds the tick assigns nothing.  So a tick changes [CharacterState] at
    most once. *)
Theorem Tick_first_match_decides (DeltaSeconds : Q) (w : World) :
  exists w0 wc w',
    call env (CallSuperTick DeltaSeconds) w = Some (tt, w0) /\
    beforeChecks env (CharacterState (self w0)) w0 = Some (tt, wc) /\
    Tick env clock DeltaSeconds w = Some (tt, w') /\
    (List.length (stateWrites w') <= S (List.length (stateWrites w)))%nat /\
    match firstMatch (transitionChecks (CharacterState (self w0)) (self wc)) with
    | Some st =>
        CharacterState (self w') = st /\ stateWrites w' = stateWrites w ++ [st]
    | None =>
        stateWrites w' = stateWrites w
    end.
Proof.
  exists (MkWorld (this w) (env (CallSuperTick DeltaSeconds) (self w))
                  (calls w ++ [CallSuperTick DeltaSeconds]) (reads w) (stateWrites w)).
  open_world w.
  unfold Tick, beforeChecks, PlayFacingFlipbook, UpdateFacing, SetVelocity,
    SetCharacterState, FindChecked, TMap_Contains, bind, modify, get, Now, call, ret.
  cbn.
  destruct (env (CallSuperTick DeltaSeconds) _) eqn:Hsuper.
  destruct CharacterState1.
  all: run_tick.
  all: do 2 eexists; split; [reflexivity|]; split; [reflexivity|]; split; [reflexivity|].
  all: cbn; rewrite ?length_app; cbn; split; [lia|]; auto.
Qed.

(** C6: a tick whose switch finds the state Walking and whose checks find
    [bIsAttacking], [bIsAbility] and [bIsMoving] all false sets the velocity
    to the zero vector and the state to Idle. *)
Theorem Tick_walking_to_idle (DeltaSeconds : Q) (w w0 wc : World) :
  call env (CallSuperTick DeltaSeconds) w = Some (tt, w0) ->
  CharacterState (self w0) = Walking ->
  beforeChecks env Walking w0 = Some (tt, wc) ->
  bIsAttacking (self wc) = false ->
  bIsAbility (self wc) = false ->
  bIsMoving (self wc) = false ->
  exists w',
    Tick env clock DeltaSeconds w = Some (tt, w') /\
    Velocity (self w') = MkFVector 0 0 0 /\
    CharacterState (self w') = Idle.
Proof.
  open_world w.
  unfold Tick, beforeChecks, PlayFacingFlipbook, UpdateFacing, SetVelocity,
    SetCharacterState, FindChecked, TMap_Contains, bind, modify, get, Now, call, ret.
  cbn. intro Hsuper. injection Hsuper as <-. cbn.
  destruct (env (CallSuperTick DeltaSeconds) _) eqn:Hobj. cbn. intros ->.
  run_tick.
  all: intro Hwc; injection Hwc as <-; cbn; intros; try discriminate.
  all: eexists; repeat split.
Qed.

(** *** The life of an attack *)

Lemma keepsAttack_ret {A : Type} (a : A) : keepsAttack (ret a).
Proof. intros w a' w' H. injection H as _ <-. apply attackGoesOn_refl. Qed.

Lemma keepsAttack_bind {A B : Type} (m : M A) (f : A -> M B) :
  keepsAttack m -> (forall a, keepsAttack (f a)) -> keepsAttack (bind m f).
Proof.
  intros Hm Hf w b w' H. unfold bind in H.
  destruct (m w) as [[a w1]|] eqn:E; [|discriminate].
  eapply attackGoesOn_trans; [exact (Hm _ _ _ E)|exact (Hf _ _ _ _ H)].
Qed.

Lemma keepsAttack_if {A : Type} (b : bool) (x y : M A) :
  keepsAttack x -> keepsAttack y -> keepsAttack (if b then x else y).
Proof. destruct b; auto. Qed.

Lemma keepsAttack_get : keepsAttack get.
Proof. intros w a w' H. injection H as _ <-. apply attackGoesOn_refl. Qed.

Lemma keepsAttack_getThis : keepsAttack getThis.
Proof. intros w a w' H. injection H as _ <-. apply attackGoesOn_refl. Qed.

Lemma keepsAttack_Now : keepsAttack (Now clock).
Proof. intros w a w' H. injection H as _ <-. apply attackGoesOn_refl. Qed.

Lemma keepsAttack_FindChecked {V : Type} (k : Direction) (m : TMap Direction V) :
  keepsAttack (FindChecked k m).
Proof.
  intros w a w' H. unfold FindChecked in H.
  destruct (TMap_Find Direction_eqb k m); [|discriminate].
  injection H as _ <-. apply attackGoesOn_refl.
Qed.

Lemma keepsAttack_modify (f : ArenaCharacter -> ArenaCharacter) :
  (forall o, attackGoesOn o (f o)) -> keepsAttack (modify f).
Proof. intros Hf w a w' H. injection H as _ <-. apply Hf. Qed.

Lemma keepsAttack_SetCharacterState (st : ECharacterState) :
  keepsAttack (SetCharacterState st).
Proof.
  intros w a w' H. injection H as _ <-. cbn.
  destruct (self w). unfold attackGoesOn. cbn. auto.
Qed.

Lemma keepsAttack_call (c : Call) :
  keepsAttackFields env -> keepsAttack (call env c).
Proof.
  intros Henv w a w' H. injection H as _ <-. cbn.
  destruct (Henv c (self w)) as (Ha & Ht & Hs).
  unfold attackGoesOn. rewrite Ha, Ht, Hs. auto.
Qed.

Ltac frame_setter :=
  let o := fresh "o" in
  intro o; destruct o; unfold attackGoesOn; cbn; auto.

Ltac keeps_attack :=
  repeat first
    [ apply keepsAttack_ret
    | apply keepsAttack_get
    | apply keepsAttack_getThis
    | apply keepsAttack_Now
    | apply keepsAttack_FindChecked
    | apply keepsAttack_SetCharacterState
    | apply keepsAttack_call; assumption
    | apply keepsAttack_modify; frame_setter
    | apply keepsAttack_bind; [|intro]
    | apply keepsAttack_if
    | match goal with
      | |- keepsAttack (match ?x with _ => _ end) => destruct x
      | |- keepsAttack (fun _ => None) => intros ? ? ? ?; discriminate
      end ].

(** With an attack active the guard of [UpdateAttackInput] is closed. *)
Lemma keepsAttack_UpdateAttackInput (active : bool) :
  keepsAttack (UpdateAttackInput clock active).
Proof.
  intros w a w' H. open_world w.
  unfold UpdateAttackInput, bind, modify, get, Now, ret in H. cbn in H.
  unfold attackGoesOn. cbn. intros ->. cbn in H.
  injection H as _ <-. cbn. auto.
Qed.

Lemma keepsAttack_UpdateMovementInput (direction : Direction) (keyDown : bool) :
  keepsAttack (UpdateMovementInput clock direction keyDown).
Proof. unfold UpdateMovementInput, orM, keyIsDown. keeps_attack. Qed.

Lemma keepsAttack_UpdateAbilityInput (active : bool) :
  keepsAttackFields env -> keepsAttack (UpdateAbilityInput env clock active).
Proof. intro Henv. unfold UpdateAbilityInput. keeps_attack. Qed.

Lemma keepsAttack_invoke (m : Method) :
  keepsAttackFields env -> m <> MFinishAttack -> keepsAttack (invoke env clock m).
Proof.
  intros Henv Hm. destruct m; cbn [invoke]; try congruence.
  - unfold Move, SetVelocity. keeps_attack.
  - unfold SetVelocity. keeps_attack.
  - unfold BeginAttack. keeps_attack.
  - unfold FinishAbility. keeps_attack.
  - unfold Attack. keeps_attack.
  - unfold ResetInput.
    do 4 (apply keepsAttack_bind; [apply keepsAttack_UpdateMovementInput|intros _]).
    apply keepsAttack_bind; [apply keepsAttack_UpdateAbilityInput, Henv|intros _].
    apply keepsAttack_UpdateAttackInput.
  - unfold ResetCooldown. keeps_attack.
  - apply keepsAttack_UpdateMovementInput.
  - unfold UpdateFacing. keeps_attack.
  - apply keepsAttack_UpdateAttackInput.
  - apply keepsAttack_UpdateAbilityInput, Henv.
  - unfold SetHitbox. keeps_attack.
  - unfold Tick, PlayFacingFlipbook, UpdateFacing, SetVelocity. keeps_attack.
Qed.

(** C10: releasing the attack key stores the key state and leaves
    [bIsAttacking] and [attackDownTime] as they are.  And when the
    collaborators do not write the attack fields themselves: [FinishAttack],
    given a hitbox for the facing, sets [bIsAttacking] to false,
    [attackDownTime] to -1 and [attackStarted] to false; and no other member
    function ends an attack in progress, moves its press time, or clears
    [attackStarted]. *)
Theorem attack_ends_only_by_FinishAttack :
  (forall w, exists w',
      UpdateAttackInput clock false w = Some (tt, w') /\
      self w' = set_attackKeyDown false (self w) /\
      bIsAttacking (self w') = bIsAttacking (self w) /\
      attackDownTime (self w') = attackDownTime (self w)) /\
  (keepsAttackFields env ->
   (forall w box,
       TMap_Find Direction_eqb (Facing (self w)) (AttackBoxes (self w)) = Some box ->
       exists w',
         FinishAttack env w = Some (tt, w') /\
         bIsAttacking (self w') = false /\
         attackDownTime (self w') = -1 /\
         attackStarted (self w') = false) /\
   (forall m w w',
       m <> MFinishAttack ->
       invoke env clock m w = Some (tt, w') ->
       attackGoesOn (self w) (self w'))).
Proof.
  split; [|intro Henv; split].
  - intro w. open_world w.
    unfold UpdateAttackInput, bind, modify, get, ret. cbn.
    rewrite andb_false_r. eexists. repeat split.
  - intros w box Hbox. open_world w. cbn in Hbox.
    unfold FinishAttack, FindChecked, bind, modify, get, call, ret. cbn.
    rewrite Hbox. eexists. split; [reflexivity|]. cbn.
    match goal with
    | |- context [env ?c ?o] => destruct (Henv c o) as (Ha & Ht & Hs)
    end.
    rewrite Ha, Ht, Hs. repeat split.
  - intros m w w' Hm Hrun. exact (keepsAttack_invoke m Henv Hm w tt w' Hrun).
Qed.

End Claims.

(** ** Worked instances *)

(** Pressing East when the clock reads tick 0 gives [tickZeroWorld]. *)
Example tickZeroWorld_reached :
  UpdateMovementInput zeroClock East true (sampleWorld sampleCharacter)
  = Some (tt, tickZeroWorld).
Proof. reflexivity. Qed.

(** Pressing and releasing the attack key gives [attackingWorld]: an attack
    in progress with the key up. *)
Example attackingWorld_reached :
  (UpdateAttackInput sampleClock true ;; UpdateAttackInput sampleClock false)%arena
    (sampleWorld sampleCharacter)
  = Some (tt, attackingWorld).
Proof. reflexivity. Qed.

(** Among East, South and West, with South and West pressed last and
    together, the character faces South. *)
Example tieCharacter_faces_South :
  match UpdateFacing (sampleWorld tieCharacter) with
  | Some (_, w') => Facing (self w') = South /\ MoveDirection (self w') = South
  | None => False
  end.
Proof. cbn. split; reflexivity. Qed.

(** Idle; press North; tick: Walking.  Tick again: the walking hook moves the
    character north.  Release North; tick: Idle, at rest. *)
Example press_walk_release_idle :
  match (UpdateMovementInput sampleClock North true ;;
         Tick walkerEnv sampleClock (1 # 60) ;;
         Tick walkerEnv sampleClock (1 # 60))%arena (sampleWorld sampleCharacter) with
  | Some (_, w1) =>
      CharacterState (self w1) = Walking /\
      Facing (self w1) = North /\
      Velocity (self w1) = MkFVector 0 0 (300 # 1) /\
      match (UpdateMovementInput sampleClock North false ;;
             Tick walkerEnv sampleClock (1 # 60))%arena w1 with
      | Some (_, w2) =>
          CharacterState (self w2) = Idle /\
          Velocity (self w2) = MkFVector 0 0 0 /\
          stateWrites w2 = [Walking; Idle]
      | None => False
      end
  | None => False
  end.
Proof. vm_compute. repeat split. Qed.

(** Walking with North held; press Attack; tick: Attacking.  The attack
    finishes; tick: Walking again. *)
Example attack_interrupts_walk :
  match (UpdateMovementInput sampleClock North true ;;
         Tick quietEnv sampleClock (1 # 60) ;;
         UpdateAttackInput sampleClock true ;;
         Tick quietEnv sampleClock (1 # 60))%arena (sampleWorld sampleCharacter) with
  | Some (_, w1) =>
      CharacterState (self w1) = Attacking /\
      match (FinishAttack quietEnv ;; Tick quietEnv sampleClock (1 # 60))%arena w1 with
      | Some (_, w2) =>
          CharacterState (self w2) = Walking /\
          stateWrites w2 = [Walking; Attacking; Walking]
      | None => False
      end
  | None => False
  end.
Proof. vm_compute. repeat split. Qed.

(** Pressing the ability key, finishing the ability and releasing the key,
    with a wall clock that is set back meanwhile, gives [usedAheadWorld]: the
    recorded last use lies two seconds after the next reading. *)
Example usedAheadWorld_reached :
  (UpdateAbilityInput quietEnv steppedBackClock true ;;
   FinishAbility ;;
   UpdateAbilityInput quietEnv steppedBackClock false)%arena (sampleWorld sampleCharacter)
  = Some (tt, usedAheadWorld).
Proof. vm_compute. reflexivity. Qed.

(** After North and then West are pressed the character, which faced South,
    faces West. *)
Example latest_press_faces_West :
  match (UpdateMovementInputs sampleClock [(North, true); (West, true)] ;;
         UpdateFacing)%arena (sampleWorld sampleCharacter) with
  | Some (_, w') => Facing (self w') = West /\ MoveDirection (self w') = West
  | None => False
  end.
Proof. vm_compute. split; reflexivity. Qed.

(** Witness of the amended C1: 500 ms into a cooldown of 1000 ms the press is
    dropped; with the cooldown reset it starts the ability. *)
Lemma UpdateAbilityInput_pressed_witness :
  (exists w',
      UpdateAbilityInput quietEnv sampleClock true (sampleWorld coolingCharacter) = Some (tt, w') /\
      calls w' = [] /\
      bIsAbility (self w') = false /\
      abilityCooldownTime (self w') = 637999999995000000) /\
  (exists w',
      UpdateAbilityInput quietEnv sampleClock true (sampleWorld sampleCharacter) = Some (tt, w') /\
      calls w' = [CallAbilityStart] /\
      bIsAbility (self w') = true /\
      abilityDownTime (self w') = 638000000000000001 /\
      abilityCooldownTime (self w') = 638000000000000002).
Proof.
  split.
  - destruct (UpdateAbilityInput_pressed quietEnv sampleClock (sampleWorld coolingCharacter))
      as (w' & Hrun & Hlocked & _).
    exists w'. split; [exact Hrun|].
    assert (Hcooling : double_lt (abilityElapsedMs (sampleClock 0) coolingCharacter)
                         (AbilityCooldown coolingCharacter) = true) by reflexivity.
    destruct (Hlocked (or_introl Hcooling)) as (_ & Hcalls & Hactive & _ & _ & Hused).
    repeat split; assumption.
  - destruct (UpdateAbilityInput_pressed quietEnv sampleClock (sampleWorld sampleCharacter))
      as (w' & Hrun & _ & Hready).
    exists w'. split; [exact Hrun|].
    assert (Hfree : ~ (double_lt (abilityElapsedMs (sampleClock 0) sampleCharacter)
                         (AbilityCooldown sampleCharacter) = true
                       \/ bIsAbility sampleCharacter = true)).
    { intros [H|H]; [vm_compute in H|]; discriminate H. }
    destruct (Hready Hfree) as (Hcalls & Hactive & Hdown & Hused).
    repeat split; assumption.
Defined.

(** Counterexample to C1 as stated: the clock reads a time two seconds
    before the recorded last use, so the time elapsed since the last use,
    -2000 ms, is below the cooldown of 1000 ms and the ability is not
    active; the press starts the ability all the same and overwrites both
    timers. *)
Lemma UpdateAbilityInput_clock_set_back_counterexample :
  double_lt (abilitySinceLastUseMs (steppedBackClock (reads usedAheadWorld)) (self usedAheadWorld))
    (AbilityCooldown (self usedAheadWorld)) = true /\
  (exists w',
      UpdateAbilityInput quietEnv steppedBackClock true usedAheadWorld = Some (tt, w') /\
      calls w' = [CallAbilityStart; CallAbilityStart] /\
      bIsAbility (self w') = true /\
      abilityDownTime (self w') = 638000000000000005 /\
      abilityCooldownTime (self w') = 638000000000000006) /\
  ~ abilityInputSpec quietEnv steppedBackClock
      (double_lt (abilitySinceLastUseMs (steppedBackClock (reads usedAheadWorld))
                    (self usedAheadWorld))
         (AbilityCooldown (self usedAheadWorld)) = true
       \/ bIsAbility (self usedAheadWorld) = true)
      usedAheadWorld.
Proof.
  assert (Hbelow : double_lt (abilitySinceLastUseMs (steppedBackClock (reads usedAheadWorld))
                                (self usedAheadWorld))
                     (AbilityCooldown (self usedAheadWorld)) = true) by reflexivity.
  split; [exact Hbelow|]. split.
  - eexists. split; [vm_compute; reflexivity|]. repeat split.
  - intros (w' & Hrun & Hignored & _).
    destruct (Hignored (or_introl Hbelow)) as (_ & Hcalls & _).
    vm_compute in Hrun. injection Hrun as Hrun. subst w'.
    discriminate Hcalls.
Qed.

(** Witness of C2: North is pressed, then West; both are held and the
    character turns to West. *)
Lemma UpdateFacing_most_recent_held_witness :
  exists w1,
    UpdateMovementInputs sampleClock [(North, true); (West, true)] (sampleWorld sampleCharacter)
    = Some (tt, w1) /\
    resolveFacingSpec w1.
Proof.
  eexists. split; [vm_compute; reflexivity|].
  apply (UpdateFacing_most_recent_held sampleClock [(North, true); (West, true)]
           (sampleWorld sampleCharacter)).
  - intro i. unfold FDateTime_default, sampleClock. lia.
  - reflexivity.
  - intros d H. destruct d; discriminate H.
  - vm_compute. reflexivity.
  - exists West. reflexivity.
  - reflexivity.
Defined.

(** Witness of C3. *)
Lemma moving_iff_some_direction_held_witness :
  exists w',
    UpdateMovementInputs sampleClock [(North, true); (East, true); (North, false)]
      (sampleWorld sampleCharacter) = Some (tt, w') /\
    wellFormedInputMap (MoveInputMap (self w')) /\
    (bIsMoving (self w') = true <->
     exists d, FDateTime_gt (stamp (MoveInputMap (self w')) d) InputReleaseTime = true).
Proof.
  apply (moving_iff_some_direction_held sampleClock
           [(North, true); (East, true); (North, false)] (sampleWorld sampleCharacter)).
  - reflexivity.
  - intro H. discriminate H.
Defined.

(** Witness of the amended C4: base damage 10 and modifier 2 give 40. *)
Lemma Attack_other_applies_damage_witness :
  exists w',
    Attack quietEnv 2%nat 2 (sampleWorld sampleCharacter) = Some (tt, w') /\
    calls w' = [CallDamage 2%nat (float_of_int 40)] /\
    attackSpec quietEnv 2%nat 2 (sampleWorld sampleCharacter).
Proof.
  assert (Hother : 2%nat <> this (sampleWorld sampleCharacter)) by (intro H; discriminate H).
  assert (Hbase : AttackDamage (self (sampleWorld sampleCharacter))
                  = S754_finite false 10485760 (-20)) by reflexivity.
  assert (Hbits : digits2_pos 10485760 = 24%positive) by reflexivity.
  assert (Hn : -126 <= 2 <= 127) by lia.
  assert (He : -149 <= -20 + 2 <= 104) by lia.
  destruct (Attack_other_applies_damage quietEnv (sampleWorld sampleCharacter) 2%nat 2 Hother)
    as (w' & Hrun & Hcalls & _ & Hexact).
  destruct (Hexact false 10485760%positive (-20) Hbase Hbits Hn He) as (Hamount & Hspec).
  exists w'. split; [exact Hrun|]. split; [|exact Hspec].
  rewrite Hcalls, Hamount. reflexivity.
Defined.

(** Counterexample to C4 as stated: with base damage 10 and modifier 128 the
    power of two is the positive infinity in single precision, and so is the
    damage passed to the target; no number is. *)
Lemma Attack_overflow_counterexample :
  Pow2 128 = S754_infinity false /\
  (exists w',
      Attack quietEnv 2%nat 128 (sampleWorld sampleCharacter) = Some (tt, w') /\
      calls w' = [CallDamage 2%nat (S754_infinity false)]) /\
  ~ attackSpec quietEnv 2%nat 128 (sampleWorld sampleCharacter).
Proof.
  split; [reflexivity|]. split.
  - eexists. split; [vm_compute; reflexivity|reflexivity].
  - intros (w' & amount & Hrun & Hcalls & Hfinite & _).
    vm_compute in Hrun. injection Hrun as Hrun. subst w'.
    cbn in Hcalls. injection Hcalls as Hamount. subst amount.
    discriminate Hfinite.
Qed.

(** Witness of C6. *)
Lemma Tick_walking_to_idle_witness :
  exists w',
    Tick quietEnv sampleClock (1 # 60) (sampleWorld walkingCharacter) = Some (tt, w') /\
    Velocity (self w') = MkFVector 0 0 0 /\
    CharacterState (self w') = Idle.
Proof.
  eapply (Tick_walking_to_idle quietEnv sampleClock (1 # 60) (sampleWorld walkingCharacter)).
  - reflexivity.
  - reflexivity.
  - reflexivity.
  - reflexivity.
  - reflexivity.
  - reflexivity.
Defined.

(** Counterexample to C7 as stated: the attack key goes down while an attack
    started earlier is still active; that is a rising edge of the key, and the
    press time is not recorded. *)
Lemma UpdateAttackInput_rising_edge_counterexample :
  risingEdge attackingWorld true = true /\
  (exists w',
      UpdateAttackInput sampleClock true attackingWorld = Some (tt, w') /\
      attackDownTime (self w') = 638000000000000000 /\
      sampleClock (reads attackingWorld) = 638000000000000001) /\
  ~ attackInputSpec sampleClock (risingEdge attackingWorld true) true attackingWorld.
Proof.
  split; [reflexivity|]. split.
  - eexists. split; [cbn; reflexivity|]. split; reflexivity.
  - intros (w' & Hrun & _ & Hedge).
    cbn in Hrun. injection Hrun as <-. cbn in Hedge.
    destruct Hedge as (_ & Htime). discriminate Htime.
Qed.

(** Witness of C8. *)
Lemma UpdateFacing_idle_keeps_facing_witness :
  exists w',
    UpdateFacing (sampleWorld sampleCharacter) = Some (tt, w') /\
    w' = sampleWorld sampleCharacter /\
    Facing (self w') = South /\
    MoveDirection (self w') = South.
Proof.
  apply (UpdateFacing_idle_keeps_facing (sampleWorld sampleCharacter)).
  reflexivity.
Defined.

(** Witness of C10. *)
Lemma attack_ends_only_by_FinishAttack_witness :
  keepsAttackFields quietEnv /\
  (exists w',
      UpdateAttackInput sampleClock false attackingWorld = Some (tt, w') /\
      bIsAttacking (self w') = true /\
      attackDownTime (self w') = 638000000000000000) /\
  (exists w',
      FinishAttack quietEnv attackingWorld = Some (tt, w') /\
      bIsAttacking (self w') = false /\
      attackDownTime (self w') = -1 /\
      attackStarted (self w') = false) /\
  (exists w',
      invoke quietEnv sampleClock (MTick (1 # 60)) attackingWorld = Some (tt, w') /\
      bIsAttacking (self w') = true /\
      attackDownTime (self w') = 638000000000000000).
Proof.
  assert (Hquiet : keepsAttackFields quietEnv) by (intros c o; repeat split).
  destruct (attack_ends_only_by_FinishAttack quietEnv sampleClock) as (Hrelease & Hframe).
  destruct (Hframe Hquiet) as (Hfinish & Honly).
  split; [exact Hquiet|]. split; [|split].
  - destruct (Hrelease attackingWorld) as (w' & Hrun & _ & Hactive & Htime).
    exists w'. repeat split; assumption.
  - exact (Hfinish attackingWorld 13%nat eq_refl).
  - eexists. split; [cbn; reflexivity|].
    assert (Hnot : MTick (1 # 60) <> MFinishAttack) by (intro H; discriminate H).
    destruct (Honly (MTick (1 # 60)) attackingWorld _ Hnot eq_refl eq_refl)
      as (Hactive & Htime & _).
    split; assumption.
Defined.

(** ** Further properties of the member functions *)

(** *** Lookups and assignments in a map keyed by directions *)

Lemma Direction_eqb_refl (d : Direction) : Direction_eqb d d = true.
Proof. destruct d; reflexivity. Qed.

Lemma Direction_eqb_true (a b : Direction) : Direction_eqb a b = true -> a = b.
Proof. destruct a, b; cbn; congruence. Qed.

Lemma TMap_Find_Add {V : Type} (k k' : Direction) (v : V) (m : TMap Direction V) :
  TMap_Find Direction_eqb k' (TMap_Add Direction_eqb k v m) =
  if Direction_eqb k' k then Some v else TMap_Find Direction_eqb k' m.
Proof.
  induction m as [|[k0 v0] rest IH]; cbn.
  - destruct (Direction_eqb k' k); reflexivity.
  - destruct (Direction_eqb k k0) eqn:E; cbn.
    + apply Direction_eqb_true in E. subst k0.
      destruct (Direction_eqb k' k); reflexivity.
    + rewrite IH. destruct (Direction_eqb k' k0) eqn:E0; [|reflexivity].
      apply Direction_eqb_true in E0. subst k0.
      destruct (Direction_eqb k' k) eqn:E1; [|reflexivity].
      apply Direction_eqb_true in E1. subst k'.
      rewrite Direction_eqb_refl in E. discriminate.
Qed.

Lemma TMap_Assign_absent {V : Type} (k : Direction) (v : V) (m : TMap Direction V) :
  TMap_Find Direction_eqb k m = None -> TMap_Assign Direction_eqb k v m = None.
Proof.
  induction m as [|[k0 v0] rest IH]; cbn; [reflexivity|].
  destruct (Direction_eqb k k0); [discriminate|].
  intro H. now rewrite (IH H).
Qed.

Lemma TMap_Assign_present {V : Type} (k : Direction) (v v0 : V) (m : TMap Direction V) :
  TMap_Find Direction_eqb k m = Some v0 ->
  exists m',
    TMap_Assign Direction_eqb k v m = Some m' /\
    map fst m' = map fst m /\
    forall k', TMap_Find Direction_eqb k' m' =
               if Direction_eqb k' k then Some v else TMap_Find Direction_eqb k' m.
Proof.
  induction m as [|[k1 v1] rest IH]; cbn; [discriminate|].
  destruct (Direction_eqb k k1) eqn:E.
  - intros _. eexists. split; [reflexivity|]. split; [reflexivity|].
    intro k'. cbn. apply Direction_eqb_true in E. subst k1.
    destruct (Direction_eqb k' k); reflexivity.
  - intro H. destruct (IH H) as (m' & Hassign & Hkeys & Hfind).
    rewrite Hassign. eexists. split; [reflexivity|]. split.
    + cbn. now rewrite Hkeys.
    + intro k'. cbn. rewrite Hfind.
      destruct (Direction_eqb k' k1) eqn:E1; [|reflexivity].
      apply Direction_eqb_true in E1. subst k1.
      destruct (Direction_eqb k' k) eqn:E2; [|reflexivity].
      apply Direction_eqb_true in E2. subst k'.
      rewrite Direction_eqb_refl in E. discriminate.
Qed.

Section Further.

Variable env : Call -> ArenaCharacter -> ArenaCharacter.
Variable clock : nat -> FDateTime.

(** *** Movement input *)

(** X1: [UpdateMovementInput] stops at a failed check when the map has no
    entry for its direction, and returns when the map has an entry for every
    direction. *)
Theorem UpdateMovementInput_needs_entries (w : World) (direction : Direction) (keyDown : bool) :
  (TMap_Find Direction_eqb direction (MoveInputMap (self w)) = None ->
   UpdateMovementInput clock direction keyDown w = None) /\
  ((forall d, TMap_Find Direction_eqb d (MoveInputMap (self w)) <> None) ->
   exists w', UpdateMovementInput clock direction keyDown w = Some (tt, w')).
Proof.
  split.
  - intro Habsent. open_world w. cbn in Habsent.
    unfold UpdateMovementInput, bind, get, Now, ret.
    destruct keyDown; cbn; now rewrite TMap_Assign_absent.
  - intro Hall. open_world w. cbn in Hall.
    unfold UpdateMovementInput, orM, keyIsDown, FindChecked, bind, modify, get, Now, ret.
    assert (Hrun : forall t, exists m',
               TMap_Assign Direction_eqb direction t MoveInputMap0 = Some m' /\
               forall d, TMap_Find Direction_eqb d m' <> None).
    { intro t. destruct (TMap_Find Direction_eqb direction MoveInputMap0) as [t0|] eqn:E.
      - destruct (TMap_Assign_present direction t t0 MoveInputMap0 E) as (m' & Ha & _ & Hf).
        exists m'. split; [exact Ha|]. intro d. rewrite Hf.
        destruct (Direction_eqb d direction); [discriminate|apply Hall].
      - exfalso. exact (Hall direction E). }
    destruct keyDown; cbn;
      match goal with
      | |- context [TMap_Assign Direction_eqb direction ?t MoveInputMap0] =>
          destruct (Hrun t) as (m' & -> & Hm')
      end; cbn;
      destruct (TMap_Find Direction_eqb North m') as [tn|] eqn:En; try (exfalso; exact (Hm' _ En));
      destruct (TMap_Find Direction_eqb West m') as [tw|] eqn:Ew; try (exfalso; exact (Hm' _ Ew));
      destruct (TMap_Find Direction_eqb South m') as [ts|] eqn:Es; try (exfalso; exact (Hm' _ Es));
      destruct (TMap_Find Direction_eqb East m') as [te|] eqn:Ee; try (exfalso; exact (Hm' _ Ee));
      repeat (cbn; rewrite ?En, ?Ew, ?Es, ?Ee; split_stamps); eexists; reflexivity.
Qed.


(** X2: a call of [UpdateMovementInput] that returns has written the input
    map, keeping its keys and their order, and [bIsMoving], and nothing else;
    it has called no collaborator, and it has read the clock once for a press
    and not at all for a release. *)
Theorem UpdateMovementInput_writes_only_input (w w' : World)
    (direction : Direction) (keyDown : bool) :
  UpdateMovementInput clock direction keyDown w = Some (tt, w') ->
  exists m b,
    self w' = set_bIsMoving b (set_MoveInputMap m (self w)) /\
    map fst m = map fst (MoveInputMap (self w)) /\
    this w' = this w /\
    calls w' = calls w /\
    stateWrites w' = stateWrites w /\
    reads w' = (if keyDown then S (reads w) else reads w).
Proof.
  intro H. open_world w.
  unfold UpdateMovementInput, orM, keyIsDown, FindChecked, bind, modify, get, Now, ret in H.
  assert (Hkeys : forall t m',
             TMap_Assign Direction_eqb direction t MoveInputMap0 = Some m' ->
             map fst m' = map fst MoveInputMap0).
  { intros t m' Ha.
    destruct (TMap_Find Direction_eqb direction MoveInputMap0) as [t0|] eqn:E.
    - destruct (TMap_Assign_present direction t t0 MoveInputMap0 E) as (m1 & Ha1 & Hk & _).
      congruence.
    - rewrite (TMap_Assign_absent direction t MoveInputMap0 E) in Ha. discriminate. }
  destruct keyDown; cbn in H;
    match type of H with
    | context [TMap_Assign Direction_eqb direction ?t MoveInputMap0] =>
        destruct (TMap_Assign Direction_eqb direction t MoveInputMap0) as [m'|] eqn:Ea;
        [specialize (Hkeys t m' Ea)|discriminate H]
    end;
    repeat (cbn in H;
            match type of H with
            | context [TMap_Find Direction_eqb ?k ?m] =>
                destruct (TMap_Find Direction_eqb k m); [|discriminate H]
            | context [FDateTime_gt ?a ?b] =>
                no_branch_inside a; no_branch_inside b; destruct (FDateTime_gt a b)
            end);
    injection H as <-; do 2 eexists; cbn; repeat split; exact Hkeys.
Qed.

(** X3: on a map with its four entries, a press read at a valid time sets
    [bIsMoving]; a release with every other direction released clears it. *)
Theorem press_sets_and_last_release_clears_moving (w : World) (direction : Direction) :
  wellFormedInputMap (MoveInputMap (self w)) ->
  (InputReleaseTime < clock (reads w) ->
   exists w',
     UpdateMovementInput clock direction true w = Some (tt, w') /\
     bIsMoving (self w') = true) /\
  ((forall d, d <> direction -> isHeld (MoveInputMap (self w)) d = false) ->
   exists w',
     UpdateMovementInput clock direction false w = Some (tt, w') /\
     bIsMoving (self w') = false).
Proof.
  intro Hwf. split.
  - intro Hvalid.
    destruct (UpdateMovementInput_step clock w direction true Hwf)
      as (w' & Hrun & _ & Hinv & _ & Hstamp).
    exists w'. split; [exact Hrun|]. apply Hinv. exists direction.
    unfold isHeld. rewrite Hstamp, Direction_eqb_refl.
    unfold FDateTime_gt. now apply Z.ltb_lt.
  - intro Hothers.
    destruct (UpdateMovementInput_step clock w direction false Hwf)
      as (w' & Hrun & _ & Hinv & _ & Hstamp).
    exists w'. split; [exact Hrun|].
    destruct (bIsMoving (self w')) eqn:E; [|reflexivity].
    destruct (proj1 Hinv E) as [d Hd]. unfold isHeld in Hd.
    rewrite Hstamp in Hd. destruct (Direction_eqb d direction) eqn:Ed.
    + discriminate Hd.
    + assert (Hne : d <> direction).
      { intros ->. rewrite Direction_eqb_refl in Ed. discriminate. }
      specialize (Hothers d Hne). unfold isHeld in Hothers. congruence.
Qed.

(** *** Facing *)

(** The loop of [UpdateFacing], from any pair it holds: either no entry
    exceeds that pair and it is kept, or the result is the first entry of the
    greatest time stamp. *)
Lemma recent_loop (m : TMap Direction FDateTime) (r : Direction * FDateTime) :
  (fold_left recent_step m r = r /\ forall p, In p m -> snd p <= snd r) \/
  (exists l1 l2,
      m = l1 ++ fold_left recent_step m r :: l2 /\
      snd r < snd (fold_left recent_step m r) /\
      (forall p, In p l1 -> snd p < snd (fold_left recent_step m r)) /\
      (forall p, In p l2 -> snd p <= snd (fold_left recent_step m r))).
Proof.
  revert r. induction m as [|p rest IH]; intro r; cbn [fold_left].
  - left. split; [reflexivity|]. intros p [].
  - unfold recent_step at 2 4 6 8 10. unfold FDateTime_gt.
    destruct (snd r <? snd p) eqn:E.
    + apply Z.ltb_lt in E. right.
      destruct (IH p) as [(Hkeep & Hle)|(l1 & l2 & Hm & Hlt & H1 & H2)].
      * rewrite Hkeep. exists [], rest. cbn. repeat split; auto. intros q [].
      * exists (p :: l1), l2. cbn. split; [f_equal; exact Hm|]. split; [lia|].
        split; [|exact H2]. intros q [<-|Hq]; [exact Hlt|exact (H1 q Hq)].
    + apply Z.ltb_ge in E.
      destruct (IH r) as [(Hkeep & Hle)|(l1 & l2 & Hm & Hlt & H1 & H2)].
      * left. split; [exact Hkeep|]. intros q [<-|Hq]; [exact E|exact (Hle q Hq)].
      * right. exists (p :: l1), l2. cbn. split; [f_equal; exact Hm|]. split; [exact Hlt|].
        split; [|exact H2]. intros q [<-|Hq]; [lia|exact (H1 q Hq)].
Qed.

(** X4: whatever entries the input map has, when [bIsMoving] is true and no
    time stamp is later than tick 0, [UpdateFacing] turns the character
    North, the key of the default-constructed pair. *)
Theorem UpdateFacing_defaults_to_North (w : World) :
  bIsMoving (self w) = true ->
  (forall p, In p (MoveInputMap (self w)) -> snd p <= FDateTime_default) ->
  exists w',
    UpdateFacing w = Some (tt, w') /\
    Facing (self w') = North /\
    MoveDirection (self w') = North.
Proof.
  intros Hmoving Hnone. open_world w. cbn in Hmoving, Hnone. subst.
  unfold UpdateFacing, bind, modify, get, ret. cbn.
  destruct (recent_loop MoveInputMap0 recent_default)
    as [(Hkeep & _)|(l1 & l2 & Hm & Hlt & _)].
  - rewrite Hkeep. eexists. repeat split.
  - exfalso. cbn in Hlt.
    assert (Hin : In (fold_left recent_step MoveInputMap0 recent_default) MoveInputMap0).
    { rewrite Hm at 2. apply in_or_app. right. left. reflexivity. }
    specialize (Hnone _ Hin). unfold FDateTime_default in *. lia.
Qed.

(** X5: whatever entries the input map has, when [bIsMoving] is true and some
    time stamp is later than tick 0, [UpdateFacing] turns the character to
    the key of the first entry, in the order of iteration, that has the
    greatest time stamp. *)
Theorem UpdateFacing_first_greatest (w : World) :
  bIsMoving (self w) = true ->
  (exists p, In p (MoveInputMap (self w)) /\ FDateTime_default < snd p) ->
  exists w' l1 t l2,
    UpdateFacing w = Some (tt, w') /\
    MoveDirection (self w') = Facing (self w') /\
    MoveInputMap (self w) = l1 ++ (Facing (self w'), t) :: l2 /\
    (forall p, In p l1 -> snd p < t) /\
    (forall p, In p l2 -> snd p <= t).
Proof.
  intros Hmoving (p & Hp & Hlater). open_world w. cbn in Hmoving, Hp. subst.
  unfold UpdateFacing, bind, modify, get, ret. cbn.
  destruct (recent_loop MoveInputMap0 recent_default)
    as [(_ & Hle)|(l1 & l2 & Hm & _ & H1 & H2)].
  - exfalso. specialize (Hle p Hp). cbn in Hle. unfold FDateTime_default in *. lia.
  - destruct (fold_left recent_step MoveInputMap0 recent_default) as [d t] eqn:E.
    cbn in H1, H2. exists
      (MkWorld this0
         (MkArenaCharacter MoveInputMap0 true d d MoveSpeed0 Velocity0 AttackBoxes0
            AttackDamage0 attackKeyDown0 bIsAttacking0 attackDownTime0 attackStarted0
            abilityKeyDown0 bIsAbility0 abilityDownTime0 abilityCooldownTime0
            AbilityCooldown0 CharacterState0 IdleAnimations0 WalkingAnimations0)
         log n writes), l1, t, l2.
    cbn. repeat split; auto.
Qed.

(** X6: [UpdateFacing] always returns; it writes [Facing] and [MoveDirection]
    and nothing else, calls no collaborator and reads no clock; a second call
    right after changes nothing more. *)
Theorem UpdateFacing_idempotent (w : World) :
  exists w' f d,
    UpdateFacing w = Some (tt, w') /\
    UpdateFacing w' = Some (tt, w') /\
    self w' = set_Facing f (set_MoveDirection d (self w)) /\
    this w' = this w /\
    calls w' = calls w /\
    reads w' = reads w /\
    stateWrites w' = stateWrites w.
Proof.
  open_world w. unfold UpdateFacing, bind, modify, get, ret. cbn.
  destruct bIsMoving0.
  - do 3 eexists. cbn. split; [reflexivity|]. split; [reflexivity|].
    split; [reflexivity|]. repeat split.
  - eexists. exists Facing0, MoveDirection0. cbn.
    split; [reflexivity|]. repeat split.
Qed.

(** *** Hitboxes *)

(** Names what the collaborators leave, innermost call first, recording what
    [Henv] says of it. *)
Ltac name_calls Henv :=
  repeat (cbn;
          match goal with
          | |- context [env ?c ?o] =>
              lazymatch o with
              | context [env _ _] => fail
              | _ => idtac
              end;
              let H := fresh "Hkept" in
              pose proof (Henv c o) as H;
              destruct (env c o) eqn:?; cbn in H;
              repeat match type of H with
                     | _ /\ _ => let H1 := fresh "Hkept" in destruct H as [H1 H]
                     end;
              subst
          end).

(** X7: [SetHitbox] first switches the collision of the box off, then
    registers it: afterwards the hitbox of the direction is that box, also
    when another was registered before, and the other directions have the
    boxes they had. *)
Theorem SetHitbox_registers (w : World) (direction : Direction) (hitbox : UBoxComponent) :
  exists w',
    SetHitbox env direction hitbox w = Some (tt, w') /\
    calls w' = calls w ++ [CallSetCollisionEnabled hitbox NoCollision] /\
    TMap_Find Direction_eqb direction (AttackBoxes (self w')) = Some hitbox /\
    forall d, d <> direction ->
      TMap_Find Direction_eqb d (AttackBoxes (self w')) =
      TMap_Find Direction_eqb d
        (AttackBoxes (env (CallSetCollisionEnabled hitbox NoCollision) (self w))).
Proof.
  unfold SetHitbox, bind, modify, call. eexists. split; [reflexivity|]. cbn.
  destruct (env (CallSetCollisionEnabled hitbox NoCollision) (self w)). cbn.
  split; [reflexivity|]. split.
  - now rewrite TMap_Find_Add, Direction_eqb_refl.
  - intros d Hd. rewrite TMap_Find_Add.
    destruct (Direction_eqb d direction) eqn:E; [|reflexivity].
    apply Direction_eqb_true in E. contradiction.
Qed.

(** X8: [BeginAttack] does not look at its argument.  With no hitbox
    registered for the current facing it stops at a failed check, and so does
    [FinishAttack]; with one it switches the collision of that box on and
    then sets [attackStarted]. *)
Theorem BeginAttack_opens_facing_hitbox (w : World) (direction : Direction) :
  match TMap_Find Direction_eqb (Facing (self w)) (AttackBoxes (self w)) with
  | None =>
      BeginAttack env direction w = None /\ FinishAttack env w = None
  | Some box =>
      exists w',
        BeginAttack env direction w = Some (tt, w') /\
        calls w' = calls w ++ [CallSetCollisionEnabled box QueryAndPhysics] /\
        self w' = set_attackStarted true
                    (env (CallSetCollisionEnabled box QueryAndPhysics) (self w))
  end.
Proof.
  open_world w. unfold BeginAttack, FinishAttack, FindChecked, bind, modify, get, call. cbn.
  destruct (TMap_Find Direction_eqb Facing0 AttackBoxes0).
  - eexists. repeat split.
  - split; reflexivity.
Qed.

(** X9: with collaborators that leave the facing and the registered hitboxes
    alone, registering a box for the current facing, beginning an attack and
    finishing it succeeds, and switches the collision of that one box off,
    on, and off again. *)
Theorem hitbox_registered_opened_closed (w : World) (direction : Direction)
    (hitbox : UBoxComponent) :
  keepsHitboxes env ->
  exists w',
    (SetHitbox env (Facing (self w)) hitbox ;;
     BeginAttack env direction ;;
     FinishAttack env) w = Some (tt, w') /\
    calls w' = calls w ++ [CallSetCollisionEnabled hitbox NoCollision;
                           CallSetCollisionEnabled hitbox QueryAndPhysics;
                           CallSetCollisionEnabled hitbox NoCollision] /\
    Facing (self w') = Facing (self w).
Proof.
  intro Henv. open_world w.
  unfold SetHitbox, BeginAttack, FinishAttack, FindChecked, bind, modify, get, call.
  name_calls Henv. cbn.
  rewrite TMap_Find_Add, Direction_eqb_refl.
  name_calls Henv. cbn.
  rewrite TMap_Find_Add, Direction_eqb_refl.
  name_calls Henv. cbn.
  eexists. split; [reflexivity|]. cbn. rewrite <- !app_assoc. split; reflexivity.
Qed.

(** *** The ability *)

Lemma GetDuration_abs (t : FTimespan) : GetDuration t = Z.abs t.
Proof. unfold GetDuration. destruct (0 <=? t) eqn:E; lia. Qed.

(** The cooldown test sees the magnitude of a span only. *)
Lemma abilityLocked_either_direction (now now' : FDateTime) (o : ArenaCharacter) :
  FDateTime_sub now' (abilityCooldownTime o) = - FDateTime_sub now (abilityCooldownTime o) ->
  abilityLocked now' o = abilityLocked now o.
Proof.
  intro Hopposite. unfold abilityLocked, abilityElapsedMs.
  rewrite Hopposite, !GetDuration_abs, Z.abs_opp. reflexivity.
Qed.

(** X10: whether a press starts the ability depends on the magnitude of the
    span between the last use and the clock reading, not on its direction: a
    reading as long before the last use as another is after it has the same
    outcome. *)
Theorem UpdateAbilityInput_either_direction (clock' : nat -> FDateTime) (w : World) :
  FDateTime_sub (clock' (reads w)) (abilityCooldownTime (self w))
  = - FDateTime_sub (clock (reads w)) (abilityCooldownTime (self w)) ->
  exists w1 w2,
    UpdateAbilityInput env clock true w = Some (tt, w1) /\
    UpdateAbilityInput env clock' true w = Some (tt, w2) /\
    calls w1 = calls w2 /\
    bIsAbility (self w1) = bIsAbility (self w2).
Proof.
  intro Hopposite. open_world w. cbn in Hopposite.
  unfold UpdateAbilityInput, bind, modify, get, Now, call, ret. cbn.
  rewrite (abilityLocked_either_direction (clock n) (clock' n)) by exact Hopposite.
  destruct (abilityLocked _ _).
  - do 2 eexists. repeat split.
  - do 2 eexists. split; [reflexivity|]. split; [reflexivity|]. cbn.
    destruct (env CallAbilityStart _). cbn. split; reflexivity.
Qed.

(** X11: a release of the ability key stores the key state and reads the
    clock once; it starts nothing, calls no collaborator and writes no other
    field, whether the ability is cooling down or not. *)
Theorem UpdateAbilityInput_release (w : World) :
  UpdateAbilityInput env clock false w =
  Some (tt, MkWorld (this w) (set_abilityKeyDown false (self w)) (calls w)
                    (S (reads w)) (stateWrites w)).
Proof.
  unfold UpdateAbilityInput, bind, modify, get, Now, ret. cbn.
  destruct (abilityLocked _ _); reflexivity.
Qed.

(** X12: after [ResetCooldown], with the ability not active, a press read at
    a valid time starts the ability as soon as [AbilityCooldown] is no more
    than the milliseconds from tick -1 to that reading. *)
Theorem ResetCooldown_reopens (w : World) :
  bIsAbility (self w) = false ->
  0 <= clock (reads w) ->
  double_le (AbilityCooldown (self w)) (GetTotalMilliseconds (clock (reads w) + 1)) = true ->
  exists w',
    (ResetCooldown ;; UpdateAbilityInput env clock true) w = Some (tt, w') /\
    calls w' = calls w ++ [CallAbilityStart] /\
    bIsAbility (self w') = true /\
    abilityCooldownTime (self w') = clock (S (S (reads w))).
Proof.
  intros Hidle Hvalid Hpassed. open_world w. cbn in Hidle, Hvalid, Hpassed. subst.
  unfold ResetCooldown, UpdateAbilityInput, bind, modify, get, Now, call, ret. cbn.
  assert (Hopen : abilityLocked (clock n)
            (MkArenaCharacter MoveInputMap0 bIsMoving0 MoveDirection0 Facing0 MoveSpeed0
               Velocity0 AttackBoxes0 AttackDamage0 attackKeyDown0 bIsAttacking0
               attackDownTime0 attackStarted0 true false abilityDownTime0 (-1)
               AbilityCooldown0 CharacterState0 IdleAnimations0 WalkingAnimations0)
            = false).
  { unfold abilityLocked, abilityElapsedMs. cbn [bIsAbility abilityCooldownTime AbilityCooldown].
    rewrite orb_false_r. apply double_le_not_lt.
    rewrite GetDuration_abs. unfold FDateTime_sub.
    replace (Z.abs (clock n - -1)) with (clock n + 1) by lia. exact Hpassed. }
  rewrite Hopen. eexists. split; [reflexivity|]. cbn.
  destruct (env CallAbilityStart _). cbn. repeat split.
Qed.

(** X13: with collaborators that do not write to the object, an ability that
    starts and is finished at once stays locked: a second press read within
    the cooldown of the recorded use is dropped, so [AbilityStart] has been
    called once. *)
Theorem ability_locked_after_finish (w : World) :
  silent env ->
  ~ (double_lt (abilityElapsedMs (clock (reads w)) (self w)) (AbilityCooldown (self w)) = true
     \/ bIsAbility (self w) = true) ->
  double_lt
    (GetTotalMilliseconds
       (GetDuration (FDateTime_sub (clock (3 + reads w)) (clock (2 + reads w)))))
    (AbilityCooldown (self w)) = true ->
  exists w',
    (UpdateAbilityInput env clock true ;;
     FinishAbility ;;
     UpdateAbilityInput env clock true) w = Some (tt, w') /\
    calls w' = calls w ++ [CallAbilityStart] /\
    bIsAbility (self w') = false /\
    abilityCooldownTime (self w') = clock (2 + reads w)%nat.
Proof.
  intros Henv Hopen Hsoon.
  rewrite <- abilityLocked_spec in Hopen. apply not_true_is_false in Hopen.
  open_world w. cbn in Hopen, Hsoon.
  unfold UpdateAbilityInput, FinishAbility, bind, modify, get, Now, call, ret. cbn.
  assert (Hopen' : forall k,
            abilityLocked (clock n)
              (MkArenaCharacter MoveInputMap0 bIsMoving0 MoveDirection0 Facing0 MoveSpeed0
                 Velocity0 AttackBoxes0 AttackDamage0 attackKeyDown0 bIsAttacking0
                 attackDownTime0 attackStarted0 k bIsAbility0 abilityDownTime0
                 abilityCooldownTime0 AbilityCooldown0 CharacterState0 IdleAnimations0
                 WalkingAnimations0) = false) by (intro k; exact Hopen).
  rewrite Hopen'. cbn. rewrite Henv. cbn.
  match goal with
  | |- context [abilityLocked ?t ?o] =>
      assert (Hlocked : abilityLocked t o = true)
  end.
  { apply abilityLocked_spec. left. exact Hsoon. }
  rewrite Hlocked. eexists. repeat split.
Qed.

(** *** Input reset *)

(** The whole effect of [UpdateMovementInput] on a map with its four
    entries. *)
Lemma UpdateMovementInput_effect (w : World) (direction : Direction) (keyDown : bool) :
  wellFormedInputMap (MoveInputMap (self w)) ->
  exists m b,
    UpdateMovementInput clock direction keyDown w =
    Some (tt, MkWorld (this w) (set_bIsMoving b (set_MoveInputMap m (self w))) (calls w)
                      (if keyDown then S (reads w) else reads w) (stateWrites w)) /\
    wellFormedInputMap m /\
    (b = true <-> exists d, isHeld m d = true) /\
    forall d, stamp m d =
              if Direction_eqb d direction
              then (if keyDown then clock (reads w) else InputReleaseTime)
              else stamp (MoveInputMap (self w)) d.
Proof.
  intro Hwf. apply wellFormedInputMap_inv in Hwf.
  destruct Hwf as (tn & te & ts & tw & Hm).
  open_world w. cbn in Hm. subst.
  unfold UpdateMovementInput, orM, keyIsDown, bind, modify, get, Now, ret, FindChecked.
  destruct direction, keyDown; cbn.
  all: split_stamps.
  all: do 2 eexists; split; [reflexivity|]; split; [reflexivity|].
  all: split; [|intros []; reflexivity].
  all: unfold isHeld, stamp; cbn.
  all: split; [intro Hb; try discriminate Hb; clear Hb
              |intros [[] Hd]; cbn in Hd; try reflexivity; congruence].
  all: first [ exists North; cbn; assumption
             | exists East; cbn; assumption
             | exists South; cbn; assumption
             | exists West; cbn; assumption ].
Qed.



(** *** The state loop *)

(** Runs [Tick] symbolically, as far as the flags and lookups decide. *)
Ltac run_cases :=
  repeat (cbn;
          match goal with
          | |- context [env ?c ?o] =>
              lazymatch o with
              | context [env _ _] => fail
              | _ => idtac
              end;
              destruct (env c o) eqn:?
          | |- context [TMap_Find Direction_eqb ?k ?m] =>
              destruct (TMap_Find Direction_eqb k m) eqn:?
          | |- context [if ?b then _ else _] => is_var b; destruct b
          | |- context [negb ?b] => is_var b; destruct b
          | |- context [match ?d with North => _ | _ => _ end] => is_var d; destruct d
          end).

(** X15: a tick whose switch finds the state Attacking calls no hook when the
    attack is over, and sets the state to Walking or Idle by [bIsMoving];
    while the attack is active it keeps the state, and calls [AttackState]
    only until the hitbox has been opened, with the signed milliseconds from
    [attackDownTime] to a clock reading and the key state. *)
Theorem Tick_Attacking (DeltaSeconds : Q) (w w0 : World) :
  call env (CallSuperTick DeltaSeconds) w = Some (tt, w0) ->
  CharacterState (self w0) = Attacking ->
  exists w',
    Tick env clock DeltaSeconds w = Some (tt, w') /\
    if bIsAttacking (self w0)
    then stateWrites w' = stateWrites w /\
         if attackStarted (self w0)
         then w' = w0
         else calls w' = calls w0 ++
                [CallAttackState
                   (GetTotalMilliseconds
                      (FDateTime_sub (clock (reads w)) (attackDownTime (self w0))))
                   (attackKeyDown (self w0))] /\
              reads w' = S (reads w)
    else calls w' = calls w0 /\
         reads w' = reads w /\
         self w' = set_CharacterState (if bIsMoving (self w0) then Walking else Idle) (self w0).
Proof.
  open_world w.
  unfold Tick, SetCharacterState, bind, modify, get, Now, call, ret.
  cbn. intro Hsuper. injection Hsuper as <-. cbn.
  destruct (env (CallSuperTick DeltaSeconds) _) eqn:Hobj. cbn. intros ->.
  destruct bIsAttacking1, attackStarted1, bIsMoving1; cbn.
  all: eexists; split; [reflexivity|]; cbn; repeat split.
Qed.

(** X16: a tick whose switch finds the state Ability calls [AbilityEnd] once
    when the ability is over, and then sets the state to Walking or Idle by
    the [bIsMoving] read before that call; while the ability is active it
    keeps the state and calls [AbilityState] with the signed milliseconds
    from [abilityDownTime] to a clock reading and the key state. *)
Theorem Tick_Ability (DeltaSeconds : Q) (w w0 : World) :
  call env (CallSuperTick DeltaSeconds) w = Some (tt, w0) ->
  CharacterState (self w0) = Ability ->
  exists w',
    Tick env clock DeltaSeconds w = Some (tt, w') /\
    if bIsAbility (self w0)
    then stateWrites w' = stateWrites w /\
         calls w' = calls w0 ++
           [CallAbilityState
              (GetTotalMilliseconds
                 (FDateTime_sub (clock (reads w)) (abilityDownTime (self w0))))
              (abilityKeyDown (self w0))] /\
         reads w' = S (reads w)
    else calls w' = calls w0 ++ [CallAbilityEnd] /\
         reads w' = reads w /\
         self w' = set_CharacterState (if bIsMoving (self w0) then Walking else Idle)
                     (env CallAbilityEnd (self w0)).
Proof.
  open_world w.
  unfold Tick, SetCharacterState, bind, modify, get, Now, call, ret.
  cbn. intro Hsuper. injection Hsuper as <-. cbn.
  destruct (env (CallSuperTick DeltaSeconds) _) eqn:Hobj. cbn. intros ->.
  destruct bIsAbility1, bIsMoving1; cbn.
  all: eexists; split; [reflexivity|]; cbn; repeat split.
Qed.

(** X17: with collaborators that do not write to the object, a tick writes
    [MoveDirection], [Facing], [Velocity] and [CharacterState] and no other
    field; it reads the clock at most once; and it changes the velocity only
    on the way from Walking to Idle, to the zero vector. *)
Theorem Tick_writes_only_motion_and_state (DeltaSeconds : Q) (w : World) :
  silent env ->
  exists w' d f v st,
    Tick env clock DeltaSeconds w = Some (tt, w') /\
    self w' = set_CharacterState st (set_Velocity v (set_Facing f (set_MoveDirection d (self w)))) /\
    this w' = this w /\
    (reads w' <= S (reads w))%nat /\
    (v = Velocity (self w) \/
     CharacterState (self w) = Walking /\ st = Idle /\ v = MkFVector 0 0 0).
Proof.
  intro Henv. open_world w.
  unfold Tick, PlayFacingFlipbook, UpdateFacing, SetVelocity,
    SetCharacterState, FindChecked, TMap_Contains, bind, modify, get, Now, call, ret.
  cbn. rewrite Henv. cbn.
  destruct CharacterState0.
  all: repeat (repeat (progress (cbn; rewrite ?Henv));
               match goal with
               | |- context [TMap_Find Direction_eqb ?k ?m] =>
                   destruct (TMap_Find Direction_eqb k m) eqn:?
               | |- context [if ?b then _ else _] => is_var b; destruct b
               | |- context [negb ?b] => is_var b; destruct b
               | |- context [match ?d with North => _ | _ => _ end] =>
                   is_var d; destruct d
               end).
  all: repeat (progress (cbn; rewrite ?Henv)).
  all: do 5 eexists; split; [reflexivity|]; cbn.
  all: split; [reflexivity|]; split; [reflexivity|]; split; [lia|].
  all: first [left; reflexivity | right; repeat split].
Qed.

(** X18: with collaborators that do not write to the object, an idle
    character that is both moving and attacking needs two ticks to reach
    Attacking: the first tick assigns Walking, the second Attacking. *)
Theorem attack_while_moving_takes_two_ticks (DeltaSeconds : Q) (w : World) :
  silent env ->
  CharacterState (self w) = Idle ->
  bIsMoving (self w) = true ->
  bIsAttacking (self w) = true ->
  exists w2,
    (Tick env clock DeltaSeconds ;; Tick env clock DeltaSeconds) w = Some (tt, w2) /\
    CharacterState (self w2) = Attacking /\
    stateWrites w2 = stateWrites w ++ [Walking; Attacking].
Proof.
  intros Henv Hidle Hmoving Hattacking. open_world w.
  cbn in Hidle, Hmoving, Hattacking. subst.
  unfold Tick, PlayFacingFlipbook, UpdateFacing, SetVelocity,
    SetCharacterState, FindChecked, TMap_Contains, bind, modify, get, Now, call, ret.
  repeat (repeat (progress (cbn; rewrite ?Henv));
          match goal with
          | |- context [TMap_Find Direction_eqb ?k ?m] =>
              destruct (TMap_Find Direction_eqb k m) eqn:?
          end).
  all: repeat (progress (cbn; rewrite ?Henv)).
  all: eexists; split; [reflexivity|]; cbn; rewrite <- app_assoc; split; reflexivity.
Qed.

(** *** What every member function keeps *)

Lemma inputInvariant_frame (o o' : ArenaCharacter) :
  MoveInputMap o' = MoveInputMap o ->
  bIsMoving o' = bIsMoving o ->
  inputInvariant o -> inputInvariant o'.
Proof.
  unfold inputInvariant, movingInvariant. intros -> ->. auto.
Qed.

Lemma keepsInputInvariant_ret {A : Type} (a : A) : keepsInputInvariant (ret a).
Proof. intros w a' w' Hinv H. injection H as _ <-. exact Hinv. Qed.

Lemma keepsInputInvariant_bind {A B : Type} (m : M A) (f : A -> M B) :
  keepsInputInvariant m ->
  (forall a, keepsInputInvariant (f a)) ->
  keepsInputInvariant (bind m f).
Proof.
  intros Hm Hf w b w' Hinv H. unfold bind in H.
  destruct (m w) as [[a w1]|] eqn:E; [|discriminate].
  exact (Hf a w1 b w' (Hm w a w1 Hinv E) H).
Qed.

Lemma keepsInputInvariant_if {A : Type} (b : bool) (x y : M A) :
  keepsInputInvariant x -> keepsInputInvariant y ->
  keepsInputInvariant (if b then x else y).
Proof. destruct b; auto. Qed.

Lemma keepsInputInvariant_get : keepsInputInvariant get.
Proof. intros w a w' Hinv H. injection H as _ <-. exact Hinv. Qed.

Lemma keepsInputInvariant_getThis : keepsInputInvariant getThis.
Proof. intros w a w' Hinv H. injection H as _ <-. exact Hinv. Qed.

Lemma keepsInputInvariant_Now : keepsInputInvariant (Now clock).
Proof. intros w a w' Hinv H. injection H as _ <-. exact Hinv. Qed.

Lemma keepsInputInvariant_FindChecked {V : Type} (k : Direction) (m : TMap Direction V) :
  keepsInputInvariant (FindChecked k m).
Proof.
  intros w a w' Hinv H. unfold FindChecked in H.
  destruct (TMap_Find Direction_eqb k m); [|discriminate].
  injection H as _ <-. exact Hinv.
Qed.

Lemma keepsInputInvariant_modify (f : ArenaCharacter -> ArenaCharacter) :
  (forall o, MoveInputMap (f o) = MoveInputMap o /\ bIsMoving (f o) = bIsMoving o) ->
  keepsInputInvariant (modify f).
Proof.
  intros Hf w a w' Hinv H. injection H as _ <-. cbn.
  destruct (Hf (self w)) as (Hm & Hb). exact (inputInvariant_frame _ _ Hm Hb Hinv).
Qed.

Lemma keepsInputInvariant_SetCharacterState (st : ECharacterState) :
  keepsInputInvariant (SetCharacterState st).
Proof.
  intros w a w' Hinv H. injection H as _ <-. cbn.
  refine (inputInvariant_frame _ _ _ _ Hinv); destruct (self w); reflexivity.
Qed.

Lemma keepsInputInvariant_call (c : Call) :
  keepsInput env -> keepsInputInvariant (call env c).
Proof.
  intros Henv w a w' Hinv H. injection H as _ <-. cbn.
  destruct (Henv c (self w)) as (Hm & Hb). exact (inputInvariant_frame _ _ Hm Hb Hinv).
Qed.

Lemma keepsInputInvariant_UpdateMovementInput (direction : Direction) (keyDown : bool) :
  keepsInputInvariant (UpdateMovementInput clock direction keyDown).
Proof.
  intros w a w' (Hwf & _) H.
  destruct (UpdateMovementInput_effect w direction keyDown Hwf) as (m & b & Hrun & Hwf' & Hb & _).
  rewrite Hrun in H. injection H as H. subst w'. clear Hrun Hwf. cbn.
  destruct (self w). cbn. split; [exact Hwf'|exact Hb].
Qed.

Ltac keeps_input :=
  repeat first
    [ apply keepsInputInvariant_ret
    | apply keepsInputInvariant_get
    | apply keepsInputInvariant_getThis
    | apply keepsInputInvariant_Now
    | apply keepsInputInvariant_FindChecked
    | apply keepsInputInvariant_SetCharacterState
    | apply keepsInputInvariant_UpdateMovementInput
    | apply keepsInputInvariant_call; assumption
    | apply keepsInputInvariant_modify;
      let o := fresh "o" in intro o; destruct o; split; reflexivity
    | apply keepsInputInvariant_bind; [|intro]
    | apply keepsInputInvariant_if
    | match goal with
      | |- keepsInputInvariant (match ?x with _ => _ end) => destruct x
      end ].

(** X19: with collaborators that leave the input map and [bIsMoving] alone,
    every member function keeps the input map at its four entries and
    [bIsMoving] in agreement with it. *)
Theorem every_method_keeps_inputInvariant (m : Method) (w w' : World) :
  keepsInput env ->
  inputInvariant (self w) ->
  invoke env clock m w = Some (tt, w') ->
  inputInvariant (self w').
Proof.
  intros Henv Hinv Hrun.
  assert (Hkeeps : keepsInputInvariant (invoke env clock m)).
  { destruct m; cbn [invoke].
    - unfold Move, SetVelocity. keeps_input.
    - unfold SetVelocity. keeps_input.
    - unfold BeginAttack. keeps_input.
    - unfold FinishAttack. keeps_input.
    - unfold FinishAbility. keeps_input.
    - unfold Attack. keeps_input.
    - unfold ResetInput, UpdateAbilityInput, UpdateAttackInput. keeps_input.
    - unfold ResetCooldown. keeps_input.
    - keeps_input.
    - unfold UpdateFacing. keeps_input.
    - unfold UpdateAttackInput. keeps_input.
    - unfold UpdateAbilityInput. keeps_input.
    - unfold SetHitbox. keeps_input.
    - unfold Tick, PlayFacingFlipbook, UpdateFacing, SetVelocity. keeps_input. }
  exact (Hkeeps w tt w' Hinv Hrun).
Qed.

(** *** Attack resolution and movement *)

(** X21: the damage modifier within and beyond the range of single
    precision, for a base damage that is a finite [float] other than zero.
    From modifier 128 up the damage [Attack] passes is the infinity of the
    sign of the base, and from -150 down the zero of that sign.  For a normal
    base and a product in the normal range, one more step of the modifier
    doubles the damage, and modifier 0 passes [AttackDamage] itself. *)
Theorem Attack_modifier_range (w : World) (other : AArenaActor) (damageModifier : Z)
    (s : bool) (m : positive) (e : Z) :
  other <> this w ->
  AttackDamage (self w) = S754_finite s m e ->
  exists w1 w2 a1 a2,
    Attack env other damageModifier w = Some (tt, w1) /\
    Attack env other (damageModifier + 1) w = Some (tt, w2) /\
    calls w1 = calls w ++ [CallDamage other a1] /\
    calls w2 = calls w ++ [CallDamage other a2] /\
    (128 <= damageModifier -> a1 = S754_infinity s) /\
    (damageModifier <= -150 -> a1 = S754_zero s) /\
    (digits2_pos m = 24%positive ->
     -126 <= damageModifier < 127 ->
     -149 <= e + damageModifier < 104 ->
     float_is_finite a1 = true /\ float_is_finite a2 = true /\
     (float_value a2 == 2 * float_value a1)%Q) /\
    (digits2_pos m = 24%positive ->
     -149 <= e <= 104 ->
     damageModifier = 0 -> a1 = AttackDamage (self w)).
Proof.
  intros Hother Hbase. unfold Attack, bind, getThis, get, call, ret. cbn.
  destruct (Nat.eqb other (this w)) eqn:E.
  { apply Nat.eqb_eq in E. contradiction. }
  do 4 eexists. split; [reflexivity|]. split; [reflexivity|]. cbn.
  split; [reflexivity|]. split; [reflexivity|]. rewrite Hbase.
  split; [|split; [|split]].
  - intro Hn. rewrite Pow2_above by lia.
    destruct (Z.leb_spec damageModifier 127); [lia|].
    unfold float_mul, SFmul. now rewrite xorb_false_r.
  - intro Hn. rewrite Pow2_below by lia.
    unfold float_mul, SFmul. now rewrite xorb_false_r.
  - intros Hm Hn He.
    rewrite !float_mul_Pow2 by (try assumption; lia).
    split; [reflexivity|]. split; [reflexivity|].
    replace (e + (damageModifier + 1)) with (e + damageModifier + 1) by lia.
    rewrite float_value_shift. change (2 ^ 1)%Q with 2%Q. ring.
  - intros Hm He ->. rewrite float_mul_Pow2 by (try assumption; lia).
    now rewrite Z.add_0_r.
Qed.

(** X22: [Move] writes the velocity and nothing else; the velocity lies in
    the X-Z plane, and its length is [MoveSpeed] whatever the move
    direction. *)
Theorem Move_speed (w : World) :
  exists w' v,
    Move w = Some (tt, w') /\
    w' = MkWorld (this w) (set_Velocity v (self w)) (calls w) (reads w) (stateWrites w) /\
    Y v = 0%Q /\
    (squaredLength v == MoveSpeed (self w) * MoveSpeed (self w))%Q.
Proof.
  open_world w. unfold Move, SetVelocity, bind, get, modify. cbn.
  destruct MoveDirection0; do 2 eexists.
  all: split; [reflexivity|]; split; [reflexivity|]; split; [reflexivity|].
  all: unfold squaredLength; cbn; ring.
Qed.

(** *** The constructor *)

(** X23: with collaborators that leave the input map alone, the constructor
    leaves every direction with an entry that holds the release sentinel,
    whatever the map held before; on an empty map the entries are in the order
    North, East, South, West. *)
Theorem AArenaCharacter_ctor_releases_all (w : World) :
  keepsInput env ->
  exists w',
    AArenaCharacter_ctor env w = Some (tt, w') /\
    calls w' = calls w ++ [CallAddDynamicAnimationFinished] /\
    (forall d, TMap_Find Direction_eqb d (MoveInputMap (self w')) = Some InputReleaseTime) /\
    (forall d, isHeld (MoveInputMap (self w')) d = false) /\
    (MoveInputMap (self w) = [] -> wellFormedInputMap (MoveInputMap (self w'))).
Proof.
  intro Henv. open_world w.
  unfold AArenaCharacter_ctor, bind, modify, call. cbn.
  eexists. split; [reflexivity|]. cbn. split; [reflexivity|].
  match goal with
  | |- context [env ?c ?o] => destruct (Henv c o) as (Hm & _); rewrite !Hm; cbn
  end.
  assert (Hfind : forall d,
             TMap_Find Direction_eqb d
               (TMap_Add Direction_eqb West InputReleaseTime
                  (TMap_Add Direction_eqb South InputReleaseTime
                     (TMap_Add Direction_eqb East InputReleaseTime
                        (TMap_Add Direction_eqb North InputReleaseTime MoveInputMap0))))
             = Some InputReleaseTime).
  { intro d. rewrite !TMap_Find_Add. destruct d; reflexivity. }
  split; [exact Hfind|]. split.
  - intro d. unfold isHeld, stamp. rewrite Hfind. reflexivity.
  - intros ->. reflexivity.
Qed.

(** *** Sequences of attack key events and of ticks *)

Lemma last_after_head {A : Type} (a d : A) (l : list A) :
  last (a :: l) d = last l a.
Proof.
  revert a d. induction l as [|b r IH]; intros a d; [reflexivity|].
  change (last (a :: b :: r) d) with (last (b :: r) d).
  now rewrite !IH.
Qed.

(** X24: any sequence of attack key events returns, calls no collaborator,
    and leaves [attackKeyDown] at the last event.  With an attack active it
    reads no clock and leaves the press time alone; with none active, the
    first press in the sequence starts the attack and is the only event that
    reads the clock, whose reading becomes the press time. *)
Theorem UpdateAttackInputs_first_press (inputs : list bool) (w : World) :
  exists w',
    UpdateAttackInputs clock inputs w = Some (tt, w') /\
    calls w' = calls w /\
    attackKeyDown (self w') = last inputs (attackKeyDown (self w)) /\
    bIsAttacking (self w') = bIsAttacking (self w) || existsb (fun b => b) inputs /\
    if negb (bIsAttacking (self w)) && existsb (fun b => b) inputs
    then attackDownTime (self w') = clock (reads w) /\ reads w' = S (reads w)
    else attackDownTime (self w') = attackDownTime (self w) /\ reads w' = reads w.
Proof.
  revert w. induction inputs as [|active rest IH]; intro w.
  - exists w. cbn. rewrite orb_false_r, andb_false_r. repeat split.
  - cbn [UpdateAttackInputs]. unfold bind at 1.
    open_world w. unfold UpdateAttackInput, bind, modify, get, Now, ret.
    cbn -[last existsb].
    destruct bIsAttacking0, active; cbn -[last existsb].
    all: match goal with
         | |- context [UpdateAttackInputs clock ?r ?w1] =>
             destruct (IH w1) as (w' & Hrun & Hcalls & Hkey & Hactive & Htime)
         end.
    all: cbn [calls self reads attackKeyDown bIsAttacking attackDownTime orb negb andb]
           in Hcalls, Hkey, Hactive, Htime.
    all: exists w'; split; [exact Hrun|]; split; [exact Hcalls|].
    all: rewrite last_after_head; split; [exact Hkey|].
    all: cbn [existsb orb negb andb]; split; [exact Hactive|exact Htime].
Qed.

(** X25: whatever the collaborators do, the state a tick assigns is never the
    one its switch found, and never Attacking or Ability when it found one of
    those two: an attack or an ability ends in Walking or Idle. *)
Theorem Tick_assigns_along_edges (DeltaSeconds : Q) (w w0 : World) :
  call env (CallSuperTick DeltaSeconds) w = Some (tt, w0) ->
  exists w',
    Tick env clock DeltaSeconds w = Some (tt, w') /\
    (stateWrites w' = stateWrites w \/
     exists st,
       stateWrites w' = stateWrites w ++ [st] /\
       CharacterState (self w') = st /\
       tickEdge (CharacterState (self w0)) st = true).
Proof.
  open_world w.
  unfold Tick, PlayFacingFlipbook, UpdateFacing, SetVelocity,
    SetCharacterState, FindChecked, TMap_Contains, bind, modify, get, Now, call, ret.
  cbn. intro Hsuper. injection Hsuper as <-. cbn.
  destruct (env (CallSuperTick DeltaSeconds) _) eqn:Hobj.
  destruct CharacterState1.
  all: run_cases.
  all: eexists; split; [reflexivity|]; cbn.
  all: first [left; reflexivity | right; eexists; repeat split].
Qed.

End Further.

(** ** Instances of the further properties *)

(** An instance of X1. *)
Lemma UpdateMovementInput_needs_entries_witness :
  UpdateMovementInput sampleClock North true
    (sampleWorld (set_MoveInputMap [] sampleCharacter)) = None /\
  exists w', UpdateMovementInput sampleClock North true (sampleWorld sampleCharacter)
             = Some (tt, w').
Proof.
  split.
  - apply (proj1 (UpdateMovementInput_needs_entries sampleClock
                    (sampleWorld (set_MoveInputMap [] sampleCharacter)) North true)).
    reflexivity.
  - apply (proj2 (UpdateMovementInput_needs_entries sampleClock
                    (sampleWorld sampleCharacter) North true)).
    intros [] H; discriminate H.
Defined.

(** An instance of X2. *)
Lemma UpdateMovementInput_writes_only_input_witness :
  exists m b,
    self tickZeroWorld = set_bIsMoving b (set_MoveInputMap m sampleCharacter) /\
    map fst m = [North; East; South; West] /\
    this tickZeroWorld = 1%nat /\
    calls tickZeroWorld = [] /\
    stateWrites tickZeroWorld = [] /\
    reads tickZeroWorld = 1%nat.
Proof.
  apply (UpdateMovementInput_writes_only_input zeroClock (sampleWorld sampleCharacter)
           tickZeroWorld East true).
  reflexivity.
Defined.

(** An instance of X3. *)
Lemma press_sets_and_last_release_clears_moving_witness :
  (exists w',
      UpdateMovementInput sampleClock North true (sampleWorld sampleCharacter) = Some (tt, w') /\
      bIsMoving (self w') = true) /\
  (exists w',
      UpdateMovementInput sampleClock North false (sampleWorld sampleCharacter) = Some (tt, w') /\
      bIsMoving (self w') = false).
Proof.
  destruct (press_sets_and_last_release_clears_moving sampleClock
              (sampleWorld sampleCharacter) North eq_refl) as (Hpress & Hrelease).
  split.
  - apply Hpress. reflexivity.
  - apply Hrelease. intros [] _; reflexivity.
Defined.

(** An instance of X4. *)
Lemma UpdateFacing_defaults_to_North_witness :
  exists w',
    UpdateFacing tickZeroWorld = Some (tt, w') /\
    Facing (self w') = North /\
    MoveDirection (self w') = North.
Proof.
  apply (UpdateFacing_defaults_to_North tickZeroWorld).
  - reflexivity.
  - intros p [<-|[<-|[<-|[<-|[]]]]]; intro H; discriminate H.
Defined.

(** An instance of X5. *)
Lemma UpdateFacing_first_greatest_witness :
  exists w' l1 t l2,
    UpdateFacing (sampleWorld tieCharacter) = Some (tt, w') /\
    MoveDirection (self w') = Facing (self w') /\
    MoveInputMap tieCharacter = l1 ++ (Facing (self w'), t) :: l2 /\
    (forall p, In p l1 -> snd p < t) /\
    (forall p, In p l2 -> snd p <= t).
Proof.
  apply (UpdateFacing_first_greatest (sampleWorld tieCharacter)).
  - reflexivity.
  - exists (East, 100). split; [right; left; reflexivity|reflexivity].
Defined.

(** An instance of X7. *)
Lemma SetHitbox_registers_witness :
  exists w',
    SetHitbox quietEnv North 99%nat (sampleWorld sampleCharacter) = Some (tt, w') /\
    TMap_Find Direction_eqb North (AttackBoxes (self w')) = Some 99%nat /\
    TMap_Find Direction_eqb East (AttackBoxes (self w')) = Some 12%nat.
Proof.
  destruct (SetHitbox_registers quietEnv (sampleWorld sampleCharacter) North 99%nat)
    as (w' & Hrun & _ & Hnew & Hold).
  exists w'. split; [exact Hrun|]. split; [exact Hnew|].
  apply (Hold East). intro H. discriminate H.
Defined.

(** An instance of X9. *)
Lemma hitbox_registered_opened_closed_witness :
  exists w',
    (SetHitbox quietEnv South 99%nat ;; BeginAttack quietEnv North ;; FinishAttack quietEnv)%arena
      (sampleWorld sampleCharacter) = Some (tt, w') /\
    calls w' = [CallSetCollisionEnabled 99%nat NoCollision;
                CallSetCollisionEnabled 99%nat QueryAndPhysics;
                CallSetCollisionEnabled 99%nat NoCollision] /\
    Facing (self w') = South.
Proof.
  apply (hitbox_registered_opened_closed quietEnv (sampleWorld sampleCharacter) North 99%nat).
  intros c o. split; reflexivity.
Defined.

(** An instance of X10: 500 ms after the last use and 500 ms before it. *)
Lemma UpdateAbilityInput_either_direction_witness :
  exists w1 w2,
    UpdateAbilityInput quietEnv sampleClock true (sampleWorld coolingCharacter) = Some (tt, w1) /\
    UpdateAbilityInput quietEnv (fun n => 637999999990000000 + Z.of_nat n) true
      (sampleWorld coolingCharacter) = Some (tt, w2) /\
    calls w1 = calls w2 /\
    bIsAbility (self w1) = bIsAbility (self w2).
Proof.
  apply (UpdateAbilityInput_either_direction quietEnv sampleClock
           (fun n => 637999999990000000 + Z.of_nat n) (sampleWorld coolingCharacter)).
  reflexivity.
Defined.

(** An instance of X12. *)
Lemma ResetCooldown_reopens_witness :
  exists w',
    (ResetCooldown ;; UpdateAbilityInput quietEnv sampleClock true)%arena
      (sampleWorld coolingCharacter) = Some (tt, w') /\
    calls w' = [CallAbilityStart] /\
    bIsAbility (self w') = true /\
    abilityCooldownTime (self w') = 638000000000000002.
Proof.
  apply (ResetCooldown_reopens quietEnv sampleClock (sampleWorld coolingCharacter)).
  - reflexivity.
  - intro H. discriminate H.
  - reflexivity.
Defined.

(** An instance of X13. *)
Lemma ability_locked_after_finish_witness :
  exists w',
    (UpdateAbilityInput quietEnv sampleClock true ;;
     FinishAbility ;;
     UpdateAbilityInput quietEnv sampleClock true)%arena (sampleWorld sampleCharacter)
    = Some (tt, w') /\
    calls w' = [CallAbilityStart] /\
    bIsAbility (self w') = false /\
    abilityCooldownTime (self w') = 638000000000000002.
Proof.
  apply (ability_locked_after_finish quietEnv sampleClock (sampleWorld sampleCharacter)).
  - intros c o. reflexivity.
  - intros [H|H]; [vm_compute in H|]; discriminate H.
  - reflexivity.
Defined.


(** An instance of X15. *)
Lemma Tick_Attacking_witness :
  exists w',
    Tick quietEnv sampleClock (1 # 60) (sampleWorld attackDoneCharacter) = Some (tt, w') /\
    calls w' = [CallSuperTick (1 # 60)] /\
    reads w' = 0%nat /\
    self w' = set_CharacterState Idle attackDoneCharacter.
Proof.
  exact (Tick_Attacking quietEnv sampleClock (1 # 60) (sampleWorld attackDoneCharacter)
           (MkWorld 1%nat attackDoneCharacter [CallSuperTick (1 # 60)] 0%nat [])
           eq_refl eq_refl).
Defined.

(** An instance of X16. *)
Lemma Tick_Ability_witness :
  exists w',
    Tick quietEnv sampleClock (1 # 60) (sampleWorld abilityDoneCharacter) = Some (tt, w') /\
    calls w' = [CallSuperTick (1 # 60); CallAbilityEnd] /\
    reads w' = 0%nat /\
    self w' = set_CharacterState Idle abilityDoneCharacter.
Proof.
  exact (Tick_Ability quietEnv sampleClock (1 # 60) (sampleWorld abilityDoneCharacter)
           (MkWorld 1%nat abilityDoneCharacter [CallSuperTick (1 # 60)] 0%nat [])
           eq_refl eq_refl).
Defined.

(** An instance of X17. *)
Lemma Tick_writes_only_motion_and_state_witness :
  exists w' d f v st,
    Tick quietEnv sampleClock (1 # 60) (sampleWorld walkingCharacter) = Some (tt, w') /\
    self w' = set_CharacterState st
                (set_Velocity v (set_Facing f (set_MoveDirection d walkingCharacter))) /\
    this w' = 1%nat /\
    (reads w' <= 1)%nat /\
    (v = MkFVector 0 0 (300 # 1) \/
     Walking = Walking /\ st = Idle /\ v = MkFVector 0 0 0).
Proof.
  apply (Tick_writes_only_motion_and_state quietEnv sampleClock (1 # 60)
           (sampleWorld walkingCharacter)).
  intros c o. reflexivity.
Defined.

(** An instance of X18. *)
Lemma attack_while_moving_takes_two_ticks_witness :
  exists w2,
    (Tick quietEnv sampleClock (1 # 60) ;; Tick quietEnv sampleClock (1 # 60))%arena
      (sampleWorld busyCharacter) = Some (tt, w2) /\
    CharacterState (self w2) = Attacking /\
    stateWrites w2 = [Walking; Attacking].
Proof.
  apply (attack_while_moving_takes_two_ticks quietEnv sampleClock (1 # 60)
           (sampleWorld busyCharacter)).
  - intros c o. reflexivity.
  - reflexivity.
  - reflexivity.
  - reflexivity.
Defined.

(** An instance of X19. *)
Lemma every_method_keeps_inputInvariant_witness :
  inputInvariant sampleCharacter /\ inputInvariant tickZeroCharacter.
Proof.
  assert (Hstart : inputInvariant sampleCharacter).
  { split; [reflexivity|]. split.
    - intro H. discriminate H.
    - intros [[] H]; discriminate H. }
  split; [exact Hstart|].
  apply (every_method_keeps_inputInvariant quietEnv zeroClock (MUpdateMovementInput East true)
           (sampleWorld sampleCharacter) tickZeroWorld).
  - intros c o. split; reflexivity.
  - exact Hstart.
  - reflexivity.
Defined.

(** An instance of X21: base damage 10 with the modifiers 2 and 3. *)
Lemma Attack_modifier_range_witness :
  exists w1 w2 a1 a2,
    Attack quietEnv 2%nat 2 (sampleWorld sampleCharacter) = Some (tt, w1) /\
    Attack quietEnv 2%nat (2 + 1) (sampleWorld sampleCharacter) = Some (tt, w2) /\
    calls w1 = [CallDamage 2%nat a1] /\
    calls w2 = [CallDamage 2%nat a2] /\
    (128 <= 2 -> a1 = S754_infinity false) /\
    (2 <= -150 -> a1 = S754_zero false) /\
    (digits2_pos 10485760 = 24%positive ->
     -126 <= 2 < 127 ->
     -149 <= -20 + 2 < 104 ->
     float_is_finite a1 = true /\ float_is_finite a2 = true /\
     (float_value a2 == 2 * float_value a1)%Q) /\
    (digits2_pos 10485760 = 24%positive ->
     -149 <= -20 <= 104 ->
     2 = 0 -> a1 = float_of_int 10).
Proof.
  apply (Attack_modifier_range quietEnv (sampleWorld sampleCharacter) 2%nat 2
           false 10485760%positive (-20)).
  - intro H. discriminate H.
  - reflexivity.
Defined.

(** An instance of X23. *)
Lemma AArenaCharacter_ctor_releases_all_witness :
  exists w',
    AArenaCharacter_ctor quietEnv (sampleWorld (set_MoveInputMap [] sampleCharacter))
    = Some (tt, w') /\
    calls w' = [CallAddDynamicAnimationFinished] /\
    (forall d, TMap_Find Direction_eqb d (MoveInputMap (self w')) = Some InputReleaseTime) /\
    (forall d, isHeld (MoveInputMap (self w')) d = false) /\
    wellFormedInputMap (MoveInputMap (self w')).
Proof.
  destruct (AArenaCharacter_ctor_releases_all quietEnv
              (sampleWorld (set_MoveInputMap [] sampleCharacter)))
    as (w' & Hrun & Hcalls & Hfind & Hheld & Hwf).
  - intros c o. split; reflexivity.
  - exists w'. repeat split; try assumption. apply Hwf. reflexivity.
Defined.

(** An instance of X25. *)
Lemma Tick_assigns_along_edges_witness :
  exists w',
    Tick quietEnv sampleClock (1 # 60) (sampleWorld attackDoneCharacter) = Some (tt, w') /\
    (stateWrites w' = [] \/
     exists st,
       stateWrites w' = [st] /\
       CharacterState (self w') = st /\
       tickEdge Attacking st = true).
Proof.
  exact (Tick_assigns_along_edges quietEnv sampleClock (1 # 60)
           (sampleWorld attackDoneCharacter)
           (MkWorld 1%nat attackDoneCharacter [CallSuperTick (1 # 60)] 0%nat [])
           eq_refl).
Defined.
